(** * Chat.tsx: the chat component as a state machine

    A shallow embedding of [src/components/Chat.tsx].  The component keeps
    five pieces of React state, two keys of [localStorage], and talks to a
    remote service through [fetch].  Every handler of the component is
    embedded as a function over an explicit world; an [async] handler is cut
    at its [await] into the part that runs at once and a resumption that runs
    when the awaited promise settles. *)

From Stdlib Require Import NArith String Ascii.
From stdpp Require Import base option list gmap.

Local Open Scope N_scope.
#[local] Set Warnings "-register-all".

(** ** Strings

    A JavaScript string is a sequence of UTF-16 code units. *)

Abbreviation jsstring := (list N).

Definition js (s : string) : jsstring :=
  N_of_ascii <$> list_ascii_of_string s.

(** [!s] on a string: only the empty string is falsy. *)
Definition falsy (s : jsstring) : bool :=
  match s with [] => true | _ :: _ => false end.

(** [x || d] where [x] is a string that may be [null] or [undefined]. *)
Definition orElse (x : option jsstring) (d : jsstring) : jsstring :=
  match x with
  | Some s => if falsy s then d else s
  | None => d
  end.

(** The code units removed by [String.prototype.trim]: WhiteSpace and
    LineTerminator of ECMA-262. *)
Definition isWhite (c : N) : bool :=
  (c =? 9) || (c =? 10) || (c =? 11) || (c =? 12) || (c =? 13) || (c =? 32)
  || (c =? 160) || (c =? 5760) || ((8192 <=? c) && (c <=? 8202))
  || (c =? 8232) || (c =? 8233) || (c =? 8239) || (c =? 8287)
  || (c =? 12288) || (c =? 65279).

Fixpoint trimStart (s : jsstring) : jsstring :=
  match s with
  | [] => []
  | c :: s' => if isWhite c then trimStart s' else s
  end.

Definition trimEnd (s : jsstring) : jsstring := rev (trimStart (rev s)).

Definition trim (s : jsstring) : jsstring := trimEnd (trimStart s).

(** ** JSON, as the host provides it

    [JSON.parse] and [JSON.stringify] belong to the host, not to the
    component; they are embedded after the JSON grammar of ECMA-262 (24.5):
    a lexer that reads one code unit at a time and a parser that keeps the
    open arrays and objects on a stack.  Both are structural, so parsing is
    total: either a value or a syntax error. *)

Inductive json :=
  | JNull
  | JBool (b : bool)
  | JNumber (literal : jsstring)
  | JString (s : jsstring)
  | JArray (items : list json)
  | JObject (members : list (jsstring * json)).

Inductive token :=
  | TLBrace | TRBrace | TLBracket | TRBracket | TColon | TComma
  | TString (s : jsstring)
  | TNumber (literal : jsstring)
  | TTrue | TFalse | TNull.

(** Where the lexer stands inside a number: an optional minus sign, then
    a zero or a digit string that does not start with zero, then an optional
    fraction (a dot and digits), then an optional exponent (e or E, an
    optional sign, digits). *)
Inductive numState :=
  | NMinus | NZero | NInt | NDot | NFrac | NExp | NExpSign | NExpDigits.

Inductive lexState :=
  | LIdle
  | LString (acc : jsstring)
  | LEscape (acc : jsstring)
  | LHex (acc : jsstring) (seen : nat) (value : N)
  | LNumber (st : numState) (acc : jsstring)
  | LWord (rest : jsstring) (t : token).

Definition isDigit (c : N) : bool := (48 <=? c) && (c <=? 57).

Definition hexValue (c : N) : option N :=
  if isDigit c then Some (c - 48)
  else if (97 <=? c) && (c <=? 102) then Some (c - 87)
  else if (65 <=? c) && (c <=? 70) then Some (c - 55)
  else None.

Definition numAccepts (st : numState) : bool :=
  match st with
  | NZero | NInt | NFrac | NExpDigits => true
  | NMinus | NDot | NExp | NExpSign => false
  end.

Definition numNext (st : numState) (c : N) : option numState :=
  let dot := c =? 46 in
  let e := (c =? 101) || (c =? 69) in
  let sign := (c =? 43) || (c =? 45) in
  match st with
  | NMinus => if c =? 48 then Some NZero else if isDigit c then Some NInt else None
  | NZero => if dot then Some NDot else if e then Some NExp else None
  | NInt =>
      if isDigit c then Some NInt
      else if dot then Some NDot else if e then Some NExp else None
  | NDot => if isDigit c then Some NFrac else None
  | NFrac => if isDigit c then Some NFrac else if e then Some NExp else None
  | NExp => if sign then Some NExpSign else if isDigit c then Some NExpDigits else None
  | NExpSign | NExpDigits => if isDigit c then Some NExpDigits else None
  end.

(** One code unit read between tokens; the tokens emitted come first. *)
Definition lexIdle (c : N) : option (list token * lexState) :=
  if (c =? 32) || (c =? 9) || (c =? 10) || (c =? 13) then Some ([], LIdle)
  else if c =? 123 then Some ([TLBrace], LIdle)
  else if c =? 125 then Some ([TRBrace], LIdle)
  else if c =? 91 then Some ([TLBracket], LIdle)
  else if c =? 93 then Some ([TRBracket], LIdle)
  else if c =? 58 then Some ([TColon], LIdle)
  else if c =? 44 then Some ([TComma], LIdle)
  else if c =? 34 then Some ([], LString [])
  else if c =? 45 then Some ([], LNumber NMinus [c])
  else if c =? 48 then Some ([], LNumber NZero [c])
  else if isDigit c then Some ([], LNumber NInt [c])
  else if c =? 116 then Some ([], LWord (js "rue") TTrue)
  else if c =? 102 then Some ([], LWord (js "alse") TFalse)
  else if c =? 110 then Some ([], LWord (js "ull") TNull)
  else None.

Definition unescape (c : N) : option N :=
  if c =? 34 then Some 34 else if c =? 92 then Some 92
  else if c =? 47 then Some 47 else if c =? 98 then Some 8
  else if c =? 102 then Some 12 else if c =? 110 then Some 10
  else if c =? 114 then Some 13 else if c =? 116 then Some 9
  else None.

Definition lexStep (st : lexState) (c : N) : option (list token * lexState) :=
  match st with
  | LIdle => lexIdle c
  | LString acc =>
      if c =? 34 then Some ([TString (rev acc)], LIdle)
      else if c =? 92 then Some ([], LEscape acc)
      else if c <? 32 then None
      else Some ([], LString (c :: acc))
  | LEscape acc =>
      if c =? 117 then Some ([], LHex acc 0%nat 0)
      else u ← unescape c; Some ([], LString (u :: acc))
  | LHex acc seen value =>
      h ← hexValue c;
      let value' := 16 * value + h in
      if (seen =? 3)%nat then Some ([], LString (value' :: acc))
      else Some ([], LHex acc (S seen) value')
  | LNumber ns acc =>
      match numNext ns c with
      | Some ns' => Some ([], LNumber ns' (c :: acc))
      | None =>
          if numAccepts ns then
            '(ts, st') ← lexIdle c; Some (TNumber (rev acc) :: ts, st')
          else None
      end
  | LWord rest t =>
      match rest with
      | x :: rest' =>
          if c =? x then
            match rest' with
            | [] => Some ([t], LIdle)
            | _ :: _ => Some ([], LWord rest' t)
            end
          else None
      | [] => None
      end
  end.

Definition lexEnd (st : lexState) : option (list token) :=
  match st with
  | LIdle => Some []
  | LNumber ns acc => if numAccepts ns then Some [TNumber (rev acc)] else None
  | _ => None
  end.

Fixpoint lex (st : lexState) (s : jsstring) : option (list token) :=
  match s with
  | [] => lexEnd st
  | c :: s' =>
      '(ts, st') ← lexStep st c;
      rest ← lex st' s';
      Some (ts ++ rest)
  end.

(** The arrays and objects still open, innermost first; what each holds is
    kept in reverse. *)
Inductive frame :=
  | FArray (items : list json)
  | FObject (members : list (jsstring * json)) (key : option jsstring).

Inductive parseMode :=
  | PValue | PArrayStart | PObjectStart | PKey | PColon | PAfter
  | PDone (v : json).

Definition pushValue (v : json) (stack : list frame)
  : option (list frame * parseMode) :=
  match stack with
  | [] => Some ([], PDone v)
  | FArray items :: stack' => Some (FArray (v :: items) :: stack', PAfter)
  | FObject members (Some k) :: stack' =>
      Some (FObject ((k, v) :: members) None :: stack', PAfter)
  | FObject _ None :: _ => None
  end.

Definition startValue (t : token) (stack : list frame)
  : option (list frame * parseMode) :=
  match t with
  | TNull => pushValue JNull stack
  | TTrue => pushValue (JBool true) stack
  | TFalse => pushValue (JBool false) stack
  | TNumber n => pushValue (JNumber n) stack
  | TString s => pushValue (JString s) stack
  | TLBracket => Some (FArray [] :: stack, PArrayStart)
  | TLBrace => Some (FObject [] None :: stack, PObjectStart)
  | TRBrace | TRBracket | TColon | TComma => None
  end.

Definition takeKey (t : token) (stack : list frame)
  : option (list frame * parseMode) :=
  match t, stack with
  | TString k, FObject members None :: stack' =>
      Some (FObject members (Some k) :: stack', PColon)
  | _, _ => None
  end.

Definition parseStep (stack : list frame) (mode : parseMode) (t : token)
  : option (list frame * parseMode) :=
  match mode with
  | PValue => startValue t stack
  | PArrayStart =>
      match t, stack with
      | TRBracket, FArray _ :: stack' => pushValue (JArray []) stack'
      | _, _ => startValue t stack
      end
  | PObjectStart =>
      match t, stack with
      | TRBrace, FObject _ _ :: stack' => pushValue (JObject []) stack'
      | _, _ => takeKey t stack
      end
  | PKey => takeKey t stack
  | PColon => match t with TColon => Some (stack, PValue) | _ => None end
  | PAfter =>
      match t, stack with
      | TComma, FArray _ :: _ => Some (stack, PValue)
      | TRBracket, FArray items :: stack' => pushValue (JArray (rev items)) stack'
      | TComma, FObject _ None :: _ => Some (stack, PKey)
      | TRBrace, FObject members None :: stack' =>
          pushValue (JObject (rev members)) stack'
      | _, _ => None
      end
  | PDone _ => None
  end.

Fixpoint parseTokens (stack : list frame) (mode : parseMode) (ts : list token)
  : option json :=
  match ts with
  | [] => match mode with PDone v => Some v | _ => None end
  | t :: ts' =>
      '(stack', mode') ← parseStep stack mode t;
      parseTokens stack' mode' ts'
  end.

(** [JSON.parse]: [None] stands for the [SyntaxError] it throws. *)
Definition JSON_parse (s : jsstring) : option json :=
  ts ← lex LIdle s; parseTokens [] PValue ts.

(** ** Data model (lines 6-27) *)

Inductive Role := assistant | user.

Record Source := { link : jsstring; source : jsstring }.

Record Message := {
  role : Role;
  content : jsstring;
  sources : option (list Source)
}.

Record HistoryItem := { id : jsstring; date : jsstring }.

Definition initialAssistantMessage : Message :=
  {| role := assistant;
     content := js "Hello! I am your news assistant. Ask me anything about the latest news.";
     sources := None |}.

Definition noResponse : jsstring := js "No response received.".

Definition errorMessage : Message :=
  {| role := assistant;
     content := js "Sorry, something went wrong. Please try again.";
     sources := None |}.

Definition chat_session_id : jsstring := js "chat_session_id".
Definition chat_history_list : jsstring := js "chat_history_list".

(** *** The registry as text

    [JSON.stringify] of a [HistoryItem[]].  A string is quoted as ECMA-262
    QuoteJSONString does: short escapes, [\u00xx] for the other control
    characters and [\udxxx] for a surrogate that has no partner. *)

Definition hexDigit (n : N) : N := if n <? 10 then 48 + n else 87 + n.

Definition unicodeEscape (c : N) : jsstring :=
  [92; 117; hexDigit (c / 4096 mod 16); hexDigit (c / 256 mod 16);
   hexDigit (c / 16 mod 16); hexDigit (c mod 16)].

Definition isLeadSurrogate (c : N) : bool := (55296 <=? c) && (c <=? 56319).
Definition isTrailSurrogate (c : N) : bool := (56320 <=? c) && (c <=? 57343).

Definition quoteUnit (c : N) : jsstring :=
  if c =? 8 then js "\b" else if c =? 9 then js "\t"
  else if c =? 10 then js "\n" else if c =? 12 then js "\f"
  else if c =? 13 then js "\r" else if c =? 34 then [92; 34]
  else if c =? 92 then [92; 92]
  else if (c <? 32) || isLeadSurrogate c || isTrailSurrogate c
  then unicodeEscape c
  else [c].

Fixpoint quoteUnits (s : jsstring) : jsstring :=
  match s with
  | [] => []
  | c :: s' =>
      match s' with
      | d :: s'' =>
          if isLeadSurrogate c && isTrailSurrogate d
          then c :: d :: quoteUnits s''
          else quoteUnit c ++ quoteUnits s'
      | [] => quoteUnit c
      end
  end.

Definition quote (s : jsstring) : jsstring := [34] ++ quoteUnits s ++ [34].

Definition stringifyItem (item : HistoryItem) : jsstring :=
  js "{" ++ quote (js "id") ++ js ":" ++ quote (id item) ++ js ","
  ++ quote (js "date") ++ js ":" ++ quote (date item) ++ js "}".

Fixpoint commaSeparated (parts : list jsstring) : jsstring :=
  match parts with
  | [] => []
  | [x] => x
  | x :: rest => x ++ js "," ++ commaSeparated rest
  end.

Definition JSON_stringify (l : list HistoryItem) : jsstring :=
  js "[" ++ commaSeparated (stringifyItem <$> l) ++ js "]".

(** A parsed value read as a [HistoryItem[]]: an array of objects written
    the way [JSON_stringify] writes them.  The source does not check this;
    the annotation [: HistoryItem[]] on line 38 asserts it. *)
Definition asHistoryItem (v : json) : option HistoryItem :=
  match v with
  | JObject [(k1, JString a); (k2, JString b)] =>
      if bool_decide (k1 = js "id") && bool_decide (k2 = js "date")
      then Some {| id := a; date := b |} else None
  | _ => None
  end.

Definition asHistoryList (v : json) : option (list HistoryItem) :=
  match v with
  | JArray items => mapM asHistoryItem items
  | _ => None
  end.

(** ** The remote service *)

Inductive Request :=
  | POST_session
  | GET_history (sid : jsstring)
  | POST_chat (sid : option jsstring) (message : jsstring)
  | DELETE_session (sid : jsstring).

Record ChatData := { answer : option jsstring; cited : option (list Source) }.

(** What [await res.json()] yields for each request, as the source types it.
    A [DELETE] response is never read. *)
Definition Data (r : Request) : Type :=
  match r with
  | POST_session => jsstring
  | GET_history _ => option (list Message)
  | POST_chat _ _ => ChatData
  | DELETE_session _ => unit
  end.

(** ** The world: React state, the persistent store, and what was emitted

    The state is the one the next render will show: every update is applied
    to it when it is made, in the order React will apply them.  [queued]
    holds the writes to the store made inside a state updater; React runs
    the updater, and so the write, at the next render. *)

Record State := {
  sessionId : option jsstring;
  messages : list Message;
  input : jsstring;
  isLoading : bool;
  historyList : list HistoryItem
}.

Record World := {
  react : State;
  localStorage : gmap (list N) (list N);
  fetched : list Request;
  console : list string;
  alerts : list string;
  queued : list (list N * list N)
}.

Definition initialState : State :=
  {| sessionId := None; messages := []; input := []; isLoading := false;
     historyList := [] |}.

Definition initialWorld (store : gmap (list N) (list N)) : World :=
  {| react := initialState; localStorage := store;
     fetched := []; console := []; alerts := []; queued := [] |}.

(** ** Effects

    A computation reads and writes the world.  [Eff] is the state monad over
    [World]; its primitives are the calls the source makes. *)

Definition Eff (A : Type) : Type := World -> A * World.

#[export] Instance eff_ret : MRet Eff := fun A a w => (a, w).

#[export] Instance eff_bind : MBind Eff :=
  fun A B k m w => k (m w).1 (m w).2.

Definition onState (f : State -> State) : Eff unit :=
  fun w =>
    (tt, {| react := f (react w); localStorage := localStorage w;
            fetched := fetched w; console := console w; alerts := alerts w;
            queued := queued w |}).

Definition setSessionId (v : option jsstring) : Eff unit :=
  onState (fun s =>
    {| sessionId := v; messages := messages s; input := input s;
       isLoading := isLoading s; historyList := historyList s |}).

(** [setMessages] is given an updater; [setMessages(v)] is [const v]. *)
Definition setMessages (f : list Message -> list Message) : Eff unit :=
  onState (fun s =>
    {| sessionId := sessionId s; messages := f (messages s); input := input s;
       isLoading := isLoading s; historyList := historyList s |}).

Definition setInput (v : jsstring) : Eff unit :=
  onState (fun s =>
    {| sessionId := sessionId s; messages := messages s; input := v;
       isLoading := isLoading s; historyList := historyList s |}).

Definition setIsLoading (v : bool) : Eff unit :=
  onState (fun s =>
    {| sessionId := sessionId s; messages := messages s; input := input s;
       isLoading := v; historyList := historyList s |}).

Definition setHistoryList (v : list HistoryItem) : Eff unit :=
  onState (fun s =>
    {| sessionId := sessionId s; messages := messages s; input := input s;
       isLoading := isLoading s; historyList := v |}).

(** A write to the store made inside a state updater: it waits for the
    render that runs the updater. *)
Definition setItemAtRender (key value : jsstring) : Eff unit :=
  fun w =>
    (tt, {| react := react w; localStorage := localStorage w;
            fetched := fetched w; console := console w; alerts := alerts w;
            queued := queued w ++ [(key, value)] |}).

(** [setHistoryList(prev => ...)] with an updater that writes to the store
    (lines 76-80).  Other updates are queued by then (lines 71-73), so React
    runs the updater at the next render.  [prev] is the state with the
    updates queued before this one applied, which is the state here; what
    the updater writes to the store is written at that render. *)
Definition updateHistoryList (f : list HistoryItem -> Eff (list HistoryItem))
  : Eff unit :=
  fun w => (updated ← f (historyList (react w)); setHistoryList updated) w.

Definition getItem (key : jsstring) : Eff (option jsstring) :=
  fun w => (localStorage w !! key, w).

Definition onStorage (f : gmap (list N) (list N) -> gmap (list N) (list N))
  : Eff unit :=
  fun w =>
    (tt, {| react := react w; localStorage := f (localStorage w);
            fetched := fetched w; console := console w; alerts := alerts w;
            queued := queued w |}).

Definition setItem (key value : jsstring) : Eff unit :=
  onStorage (insert key value).

Definition removeItem (key : jsstring) : Eff unit :=
  onStorage (delete key).

(** The next render: the queued updaters run, and their writes reach the
    store in the order they were queued. *)
Definition runUpdaters : Eff unit :=
  fun w =>
    (tt, {| react := react w;
            localStorage :=
              foldl (fun store write => <[write.1 := write.2]> store)
                    (localStorage w) (queued w);
            fetched := fetched w; console := console w; alerts := alerts w;
            queued := [] |}).

(** [fetch] sends the request; the promise it returns is awaited by the
    caller, which is where the handler is cut. *)
Definition fetch (r : Request) : Eff unit :=
  fun w =>
    (tt, {| react := react w; localStorage := localStorage w;
            fetched := fetched w ++ [r]; console := console w;
            alerts := alerts w; queued := queued w |}).

Definition console_error (label : string) : Eff unit :=
  fun w =>
    (tt, {| react := react w; localStorage := localStorage w;
            fetched := fetched w; console := console w ++ [label];
            alerts := alerts w; queued := queued w |}).

Definition alert (text : string) : Eff unit :=
  fun w =>
    (tt, {| react := react w; localStorage := localStorage w;
            fetched := fetched w; console := console w;
            alerts := alerts w ++ [text]; queued := queued w |}).

(** ** The handlers

    A handler is a closure of the render that created it: it sees the state
    of that render ([seen]) and writes through the setters.  An [async]
    handler stops at its [await] and leaves behind what it will do when the
    promise settles, with the variables it closed over. *)

Inductive Pending :=
  | createSession_k
  | fetchHistory_k (sid : jsstring)
  | handleDeleteSession_k (seen : State) (sid : jsstring)
  | handleResetChat_k (sid : jsstring)
  | sendMessage_k (sid : option jsstring) (message : jsstring).

Definition request (p : Pending) : Request :=
  match p with
  | createSession_k => POST_session
  | fetchHistory_k sid => GET_history sid
  | handleDeleteSession_k _ sid => DELETE_session sid
  | handleResetChat_k sid => DELETE_session sid
  | sendMessage_k sid message => POST_chat sid message
  end.

(** [await p]: send the request of [p] and stop. *)
Definition await (p : Pending) : Eff (option Pending) :=
  fetch (request p);; mret (Some p).

Definition finished : Eff (option Pending) := mret None.

(** Lines 65-84.  [None] is a rejected [fetch] or [res.json()]. *)
Definition createSession : Eff (option Pending) := await createSession_k.

Definition createSession_resume (now : jsstring) (r : option jsstring)
  : Eff (option Pending) :=
  match r with
  | Some newSessionId =>
      setSessionId (Some newSessionId);;
      setItem chat_session_id newSessionId;;
      setMessages (const [initialAssistantMessage]);;
      let newHistoryItem := {| id := newSessionId; date := now |} in
      updateHistoryList (fun prev =>
        let updatedList := newHistoryItem :: prev in
        setItemAtRender chat_history_list (JSON_stringify updatedList);;
        mret updatedList);;
      finished
  | None => console_error "Error creating session:";; finished
  end.

(** Lines 86-98. *)
Definition fetchHistory (sid : jsstring) : Eff (option Pending) :=
  await (fetchHistory_k sid).

Definition fetchHistory_resume (r : option (option (list Message)))
  : Eff (option Pending) :=
  match r with
  | Some data_history =>
      match data_history with
      | Some (m :: history) => setMessages (const (m :: history))
      | Some [] | None => setMessages (const [initialAssistantMessage])
      end;;
      finished
  | None => console_error "Error fetching history:";; finished
  end.

(** Lines 100-102. *)
Definition handleNewChat : Eff (option Pending) := createSession.

(** Lines 104-109. *)
Definition handleLoadSession (seen : State) (sid : jsstring)
  : Eff (option Pending) :=
  if bool_decide (Some sid = sessionId seen) then finished
  else
    setSessionId (Some sid);;
    setItem chat_session_id sid;;
    fetchHistory sid.

Definition lastSessionWarning : string :=
  "You cannot delete the last active session. Please create a new chat first.".

(** Lines 111-141.  [confirm] is the answer given to [window.confirm]. *)
Definition handleDeleteSession (seen : State) (confirm : bool) (sid : jsstring)
  : Eff (option Pending) :=
  if (length (historyList seen) <=? 1)%nat then
    alert lastSessionWarning;;
    finished
  else if confirm then await (handleDeleteSession_k seen sid)
  else finished.

Definition handleDeleteSession_resume (seen : State) (sid : jsstring)
    (r : option unit) : Eff (option Pending) :=
  match r with
  | Some _ =>
      let updatedList := filter (fun item => id item ≠ sid) (historyList seen) in
      setHistoryList updatedList;;
      setItem chat_history_list (JSON_stringify updatedList);;
      if bool_decide (Some sid = sessionId seen) then
        match updatedList with
        | nextSession :: _ => handleLoadSession seen (id nextSession)
        | [] =>
            setSessionId None;;
            setMessages (const [initialAssistantMessage]);;
            removeItem chat_session_id;;
            finished
        end
      else finished
  | None => console_error "Error deleting session:";; finished
  end.

(** Lines 143-155. *)
Definition handleResetChat (seen : State) (confirm : bool)
  : Eff (option Pending) :=
  match sessionId seen with
  | Some sid =>
      if falsy sid then finished
      else if confirm then await (handleResetChat_k sid)
      else finished
  | None => finished
  end.

Definition handleResetChat_resume (r : option unit) : Eff (option Pending) :=
  match r with
  | Some _ => setMessages (const [initialAssistantMessage]);; finished
  | None => console_error "Error resetting chat:";; finished
  end.

(** Lines 157-193. *)
Definition assistantReply (data : ChatData) : Message :=
  match cited data with
  | Some data_sources =>
      {| role := assistant; content := orElse (answer data) noResponse;
         sources := Some data_sources |}
  | None =>
      {| role := assistant; content := orElse (answer data) noResponse;
         sources := None |}
  end.

Definition userMessage (text : jsstring) : Message :=
  {| role := user; content := text; sources := None |}.

Definition sendMessage (seen : State) : Eff (option Pending) :=
  if falsy (trim (input seen)) || isLoading seen then finished
  else
    setMessages (fun prev => prev ++ [userMessage (input seen)]);;
    setInput [];;
    setIsLoading true;;
    await (sendMessage_k (sessionId seen) (input seen)).

Definition sendMessage_resume (r : option ChatData) : Eff (option Pending) :=
  match r with
  | Some data => setMessages (fun prev => prev ++ [assistantReply data])
  | None =>
      console_error "Error sending message:";;
      setMessages (fun prev => prev ++ [errorMessage])
  end;;
  setIsLoading false;;
  finished.

(** ** Mounting (lines 37-55)

    The effect of the first render reads the registry and the session id
    from the store.  [JSON.parse] is called outside every [try], so its
    [SyntaxError] ends the effect; a value that parses but is no
    [HistoryItem[]] puts the component outside its own types, which the
    embedding does not follow. *)

Inductive Mounted :=
  | Uncaught
  | Untyped (v : json)
  | Ready (w : World) (p : option Pending).

Definition initSession : Eff (option Pending) :=
  storedSession ← getItem chat_session_id;
  match storedSession with
  | Some sid =>
      if falsy sid then createSession
      else setSessionId (Some sid);; fetchHistory sid
  | None => createSession
  end.

Definition storedRegistry (store : gmap (list N) (list N)) : option json :=
  JSON_parse (orElse (store !! chat_history_list) (js "[]")).

Definition mount (store : gmap (list N) (list N)) : Mounted :=
  match storedRegistry store with
  | None => Uncaught
  | Some v =>
      match asHistoryList v with
      | None => Untyped v
      | Some storedHistory =>
          let out := (setHistoryList storedHistory;; initSession)
                       (initialWorld store) in
          Ready out.2 out.1
      end
  end.

(** ** The component over time

    Between two events the component is its world, the requests still in
    flight, and the state of the last committed render: the closures of that
    render handle the next user action, whatever was updated since.  An
    event is a user action, the settling of one request in flight, or a
    render, which runs the queued updaters and commits the state. *)

Inductive Event :=
  | NewChat
  | LoadSession (sid : jsstring)
  | DeleteSession (confirm : bool) (sid : jsstring)
  | ResetChat (confirm : bool)
  | Change (value : jsstring)
  | Submit.

Definition handle (e : Event) (seen : State) : Eff (option Pending) :=
  match e with
  | NewChat => handleNewChat
  | LoadSession sid => handleLoadSession seen sid
  | DeleteSession confirm sid => handleDeleteSession seen confirm sid
  | ResetChat confirm => handleResetChat seen confirm
  | Change value => setInput value;; finished
  | Submit => sendMessage seen
  end.

Definition resume (now : jsstring) (p : Pending)
  : option (Data (request p)) -> Eff (option Pending) :=
  match p return option (Data (request p)) -> Eff (option Pending) with
  | createSession_k => createSession_resume now
  | fetchHistory_k _ => fetchHistory_resume
  | handleDeleteSession_k seen sid => handleDeleteSession_resume seen sid
  | handleResetChat_k _ => handleResetChat_resume
  | sendMessage_k _ _ => sendMessage_resume
  end.

Record System := {
  world : World;
  inFlight : list Pending;
  rendered : State
}.

(** The mount effect runs after the first render, which showed the initial
    state. *)
Definition started (w : World) (p : option Pending) : System :=
  {| world := w; inFlight := option_list p; rendered := initialState |}.

Definition dispatch (e : Event) (sys : System) : System :=
  let out := handle e (rendered sys) (world sys) in
  {| world := out.2; inFlight := inFlight sys ++ option_list out.1;
     rendered := rendered sys |}.

Definition settle (i : nat) (p : Pending) (now : jsstring)
    (r : option (Data (request p))) (sys : System) : System :=
  let out := resume now p r (world sys) in
  {| world := out.2; inFlight := delete i (inFlight sys) ++ option_list out.1;
     rendered := rendered sys |}.

Definition commit (sys : System) : System :=
  let w := (runUpdaters (world sys)).2 in
  {| world := w; inFlight := inFlight sys; rendered := react w |}.

Inductive step : System -> System -> Prop :=
  | step_event e sys : step sys (dispatch e sys)
  | step_settle i p now r sys :
      inFlight sys !! i = Some p -> step sys (settle i p now r sys)
  | step_commit sys : step sys (commit sys).

Definition reachable (sys : System) : Prop :=
  exists store w p, mount store = Ready w p /\ rtc step (started w p) sys.

(** The steps of the component when a render is committed after each
    submit, before the next user action: what React does with the updates
    made in the handler of an event of the page. *)
Inductive uiStep : System -> System -> Prop :=
  | ui_event e sys : e <> Submit -> uiStep sys (dispatch e sys)
  | ui_submit sys : uiStep sys (commit (dispatch Submit sys))
  | ui_settle i p now r sys :
      inFlight sys !! i = Some p -> uiStep sys (settle i p now r sys)
  | ui_commit sys : uiStep sys (commit sys).

Definition uiReachable (sys : System) : Prop :=
  exists store w p, mount store = Ready w p /\ rtc uiStep (started w p) sys.

Definition isSend (p : Pending) : bool :=
  match p with sendMessage_k _ _ => true | _ => false end.

Fixpoint sends (l : list Pending) : nat :=
  match l with
  | [] => 0
  | p :: l' => ((if isSend p then 1 else 0) + sends l')%nat
  end.

(** What a handler leaves behind, and the world after it. *)
Definition left {A} (m : Eff A) (w : World) : A := (m w).1.
Definition after {A} (m : Eff A) (w : World) : World := (m w).2.

(** The entry a settled send appends. *)
Definition replyEntry (r : option ChatData) : Message :=
  match r with
  | Some data => assistantReply data
  | None => errorMessage
  end.

(** A send from the latest render, settled by [r] before anything else
    happens. *)
Definition sendThenSettle (r : option ChatData) (w : World) : World :=
  let out := sendMessage (react w) w in
  match out.1 with
  | Some _ => after (sendMessage_resume r) out.2
  | None => out.2
  end.

(** The same for a send from the render that showed [seen]. *)
Definition sendFromThenSettle (seen : State) (r : option ChatData) (w : World)
  : World :=
  let out := sendMessage seen w in
  match out.1 with
  | Some _ => after (sendMessage_resume r) out.2
  | None => out.2
  end.

Definition withInput (text : jsstring) (w : World) : World :=
  after (setInput text) w.

(** The claim on the growth of the log, as the specification words it:
    two entries for a send that succeeds, one for a send that fails. *)
Definition growthAsSpecified (r : option ChatData) (w : World) : Prop :=
  length (messages (react (sendThenSettle r w))) =
  (length (messages (react w)) + match r with Some _ => 2 | None => 1 end)%nat.

(** The claim on citations, as the specification words it: the entry has
    [sources] exactly when the response cites at least one source. *)
Definition sourcesAsSpecified (data : ChatData) : Prop :=
  is_Some (sources (assistantReply data)) <->
  exists c cs, cited data = Some (c :: cs).

(** What [console.error] is given when the request of [p] fails. *)
Definition failureLabel (p : Pending) : string :=
  match p with
  | createSession_k => "Error creating session:"
  | fetchHistory_k _ => "Error fetching history:"
  | handleDeleteSession_k _ _ => "Error deleting session:"
  | handleResetChat_k _ => "Error resetting chat:"
  | sendMessage_k _ _ => "Error sending message:"
  end.

(** The claim on failures, as the specification words it: after a failed
    request the log shows a fallback, the greeting or the error entry. *)
Definition fallbackAsSpecified (now : jsstring) (p : Pending) (w : World)
  : Prop :=
  let w' := after (resume now p None) w in
  initialAssistantMessage ∈ messages (react w')
  \/ errorMessage ∈ messages (react w').

(** ** Worlds used as examples *)

Definition malformedStore : gmap (list N) (list N) :=
  {[ chat_history_list := js "{" ]}.

Definition freshWorld : World := initialWorld ∅.

Definition askingWorld : World := withInput (js "news?") freshWorld.

Definition busyWorld : World := after (setIsLoading true) askingWorld.

Definition blankWorld : World := withInput [32; 9; 160; 8195] freshWorld.

Definition abcItem : HistoryItem := {| id := js "abc"; date := js "now" |}.

(** After the first session [abc] was created on a fresh start. *)
Definition oneSessionWorld : World :=
  after (createSession_resume (js "now") (Some (js "abc")))
        (after createSession freshWorld).

Definition hiMessage : Message := userMessage (js "hi").

Definition answered : ChatData :=
  {| answer := Some (js "Here.");
     cited := Some [ {| link := js "http://x"; source := js "X" |} ] |}.

Definition answeredWithoutSources : ChatData :=
  {| answer := Some (js "Here."); cited := Some [] |}.

(** A fresh start, the first session created, a question typed, shown and
    submitted: one send is in flight. *)
Definition afterMount : System := started (after createSession freshWorld)
                                          (Some createSession_k).

(** The component once the first session exists, before anything is
    typed. *)
Definition greetedSystem : System :=
  settle 0 createSession_k (js "now") (Some (js "abc")) afterMount.

Definition typedSystem : System :=
  commit (dispatch (Change (js "news?")) greetedSystem).

Definition askedSystem : System := commit (dispatch Submit typedSystem).

(** The question submitted twice to the handler of the same render. *)
Definition doubleSubmitted : System :=
  dispatch Submit (dispatch Submit typedSystem).

(** ** The registry as tokens and as a value

    What [JSON_stringify] of a registry lexes and parses to. *)

Definition itemJson (item : HistoryItem) : json :=
  JObject [(js "id", JString (id item)); (js "date", JString (date item))].

Definition itemTokens (item : HistoryItem) : list token :=
  [TLBrace; TString (js "id"); TColon; TString (id item); TComma;
   TString (js "date"); TColon; TString (date item); TRBrace].

Fixpoint listTokens (l : list HistoryItem) : list token :=
  match l with
  | [] => []
  | [x] => itemTokens x
  | x :: rest => itemTokens x ++ TComma :: listTokens rest
  end.


(** The registry a reload would read from the store (line 38). *)
Definition readRegistry (store : gmap (list N) (list N))
  : option (list HistoryItem) :=
  v ← storedRegistry store; asHistoryList v.

(** The store holds the session id when there is one. *)
Definition sessionStored (w : World) : Prop :=
  match sessionId (react w) with
  | Some sid => localStorage w !! chat_session_id = Some sid
  | None => orElse (localStorage w !! chat_session_id) [] = []
  end.

(** The store mirrors the state: it holds the registry as text, and the
    session id when there is one. *)
Definition mirrored (w : World) : Prop :=
  readRegistry (localStorage w) = Some (historyList (react w))
  /\ sessionStored w.

(** What a queued updater will write: the text of some registry, under the
    key of the registry. *)
Definition registryWrite (write : list N * list N) : Prop :=
  write.1 = chat_history_list /\ exists l, write.2 = JSON_stringify l.

(** A reload can start from the store: the registry in it can be read, now
    and after the queued updaters have run, and the session id is in it. *)
Definition restorable (w : World) : Prop :=
  is_Some (readRegistry (localStorage w))
  /\ Forall registryWrite (queued w)
  /\ sessionStored w.

(** The resumption that queues an updater (lines 76-80). *)
Definition queuesUpdater (p : Pending) : bool :=
  match p with createSession_k => true | _ => false end.

(** The steps of the component when the answer to a creation is followed by
    the render that runs its updater, before anything else happens. *)
Inductive orderlyStep : System -> System -> Prop :=
  | orderly_event e sys : orderlyStep sys (dispatch e sys)
  | orderly_settle i p now r sys :
      inFlight sys !! i = Some p ->
      orderlyStep sys (if queuesUpdater p then commit (settle i p now r sys)
                       else settle i p now r sys)
  | orderly_commit sys : orderlyStep sys (commit sys).

Definition orderlyReachable (sys : System) : Prop :=
  exists store w p, mount store = Ready w p /\ rtc orderlyStep (started w p) sys.

(** The first session created and shown. *)
Definition shownSystem : System := commit greetedSystem.

(** New chats, each answered by the service with the id and at the date of
    an item, one after the other. *)
Definition newChats (items : list HistoryItem) (w : World) : World :=
  foldl (fun w item =>
           after (createSession_resume (date item) (Some (id item)))
                 (after handleNewChat w))
        w items.

(** ** What is rendered (lines 216-249)

    The parts of the markup that depend on the state: one block per entry
    of the log, with its list of sources when there is one to show, the
    [Thinking...] line, and the input and the button of the form. *)

Definition roleName (r : Role) : jsstring :=
  match r with
  | assistant => js "assistant"
  | user => js "user"
  end.

Record Anchor := { href : jsstring; anchorText : jsstring }.

Record MessageView := {
  className : jsstring;
  contentText : jsstring;
  sourcesBlock : option (list Anchor)
}.

Definition renderSource (s : Source) : Anchor :=
  {| href := link s; anchorText := source s |}.

(** Lines 218-234: [msg.sources && msg.sources.length > 0 && ...]. *)
Definition renderMessage (msg : Message) : MessageView :=
  {| className := js "message " ++ roleName (role msg);
     contentText := content msg;
     sourcesBlock :=
       match sources msg with
       | Some (s :: rest) => Some (renderSource <$> s :: rest)
       | Some [] | None => None
       end |}.

Record View := {
  messagesArea : list MessageView;
  thinking : bool;
  inputValue : jsstring;
  inputDisabled : bool;
  sendDisabled : bool
}.

Definition render (s : State) : View :=
  {| messagesArea := renderMessage <$> messages s;
     thinking := isLoading s;
     inputValue := input s;
     inputDisabled := isLoading s;
     sendDisabled := isLoading s |}.

(** The [DELETE] requests among those sent. *)
Definition isDeletion (r : Request) : bool :=
  match r with DELETE_session _ => true | _ => false end.

Definition deletions (w : World) : list Request :=
  List.filter isDeletion (fetched w).

(** A deletion or a reset, with the dialog of [window.confirm] accepted. *)
Definition confirmed (e : Event) : bool :=
  match e with
  | DeleteSession true _ | ResetChat true => true
  | _ => false
  end.

(** A switch to [a] and then to [b], the history of [b] arriving before
    that of [a]. *)
Definition switchTwice (a b : jsstring) (ha hb : list Message) (w : World)
  : World :=
  let w1 := after (handleLoadSession (react w) a) w in
  let w2 := after (handleLoadSession (react w1) b) w1 in
  let w3 := after (fetchHistory_resume (Some (Some hb))) w2 in
  after (fetchHistory_resume (Some (Some ha))) w3.

(** A switch to [sid] whose history cannot be fetched. *)
Definition switchThenFail (sid : jsstring) (w : World) : World :=
  after (fetchHistory_resume None) (after (handleLoadSession (react w) sid) w).

(** Two sessions, [xyz] created after [abc]. *)
Definition twoSessionsWorld : World :=
  newChats [abcItem; {| id := js "xyz"; date := js "later" |}] freshWorld.

(** The world right after mounting on [store] with the registry [l] read
    from it and the request [r] sent. *)
Definition mountedWorld (store : gmap (list N) (list N))
    (l : list HistoryItem) (sid : option jsstring) (r : Request) : World :=
  {| react := {| sessionId := sid; messages := []; input := [];
                 isLoading := false; historyList := l |};
     localStorage := store; fetched := [r]; console := []; alerts := [];
     queued := [] |}.

Definition abcStore : gmap (list N) (list N) :=
  {[ chat_session_id := js "abc" ]}.


(** The resumptions that write the registry. *)
Definition writesRegistry (p : Pending) : bool :=
  match p with
  | createSession_k | handleDeleteSession_k _ _ => true
  | _ => false
  end.


(** Two sessions shown; then a new chat and the deletion of [abc] are
    asked for, the creation is answered, the deletion is answered before any
    render, and the render comes last. *)
Definition twoSessionsShown : System :=
  commit {| world := twoSessionsWorld; inFlight := [];
            rendered := react twoSessionsWorld |}.

Definition lateUpdaterSystem : System :=
  commit
    (settle 0 (handleDeleteSession_k (rendered twoSessionsShown) (js "abc"))
       [] (Some ())
       (settle 0 createSession_k (js "then") (Some (js "new"))
          (dispatch (DeleteSession true (js "abc"))
             (dispatch NewChat twoSessionsShown)))).

(** ** Invariants *)

(** The loading flag is up exactly while a send is in flight. *)
Definition singleFlight (sys : System) : Prop :=
  sends (inFlight sys) =
  if isLoading (react (world sys)) then 1%nat else 0%nat.

(** The render on screen does not show the flag down while it is up. *)
Definition flagShown (sys : System) : Prop :=
  isLoading (rendered sys) = false -> isLoading (react (world sys)) = false.

(** The flag is up only while a send is in flight. *)
Definition flagBacked (sys : System) : Prop :=
  isLoading (react (world sys)) = true -> (1 <= sends (inFlight sys))%nat.

(** While the answers to creations are rendered at once, the store mirrors
    the state and no updater is left queued. *)
Definition settledMirror (sys : System) : Prop :=
  mirrored (world sys) /\ queued (world sys) = [].

(** * Properties *)

Ltac run :=
  cbv [left after handle handleNewChat createSession fetchHistory
       handleLoadSession handleDeleteSession handleResetChat sendMessage
       createSession_resume fetchHistory_resume handleDeleteSession_resume
       handleResetChat_resume sendMessage_resume resume sendThenSettle
       withInput initSession await finished
       fetch console_error alert getItem setItem removeItem onStorage
       setItemAtRender runUpdaters setSessionId setMessages setInput setIsLoading setHistoryList
       updateHistoryList onState mbind mret eff_bind eff_ret const];
  cbn [fst snd react localStorage fetched console alerts queued
       sessionId messages input isLoading historyList request
       initialWorld initialState].

(** ** Strings *)

Lemma trimStart_white (s : jsstring) :
  forallb isWhite s = true -> trimStart s = [].
Proof.
  induction s as [|c s IH]; simpl; [done|].
  intros [Hc Hs]%andb_prop. rewrite Hc. auto.
Qed.

Lemma trim_white (s : jsstring) : forallb isWhite s = true -> trim s = [].
Proof.
  intros H. unfold trim, trimEnd. by rewrite (trimStart_white s H).
Qed.

Lemma trimStart_nil_white (s : jsstring) :
  trimStart s = [] -> forallb isWhite s = true.
Proof.
  induction s as [|c s IH]; simpl; [done|].
  destruct (isWhite c); [auto | discriminate].
Qed.

Lemma trimStart_head (s : jsstring) c t :
  trimStart s = c :: t -> isWhite c = false.
Proof.
  induction s as [|d s IH]; simpl; [done|].
  destruct (isWhite d) eqn:Hd; [done|]. congruence.
Qed.

Lemma trim_nil_white (s : jsstring) : trim s = [] -> forallb isWhite s = true.
Proof.
  unfold trim, trimEnd. intros H. apply trimStart_nil_white.
  apply (f_equal (@rev N)) in H. rewrite rev_involutive in H. simpl in H.
  apply trimStart_nil_white in H.
  destruct (trimStart s) as [|c t] eqn:E; [done|].
  apply trimStart_head in E.
  rewrite forallb_forall in H. rewrite (H c) in E; [done|].
  rewrite <- in_rev. by left.
Qed.

(** [!input.trim()] holds exactly of the strings made of white space. *)
Lemma blank_iff (s : jsstring) :
  falsy (trim s) = true <-> forallb isWhite s = true.
Proof.
  split.
  - intros H. apply trim_nil_white. by destruct (trim s).
  - intros H. by rewrite (trim_white s H).
Qed.

(** ** Sending (lines 157-193) *)


Lemma sendMessage_begins_from (seen : State) (w : World) :
  falsy (trim (input seen)) = false ->
  isLoading seen = false ->
  sendMessage seen w =
  (Some (sendMessage_k (sessionId seen) (input seen)),
   {| react :=
        {| sessionId := sessionId (react w);
           messages := messages (react w) ++ [userMessage (input seen)];
           input := []; isLoading := true;
           historyList := historyList (react w) |};
      localStorage := localStorage w;
      fetched := fetched w ++ [POST_chat (sessionId seen) (input seen)];
      console := console w; alerts := alerts w; queued := queued w |}).
Proof.
  intros Hin Hload. unfold sendMessage. rewrite Hin, Hload. reflexivity.
Qed.

Lemma sendMessage_refused (seen : State) (w : World) :
  isLoading seen = true -> sendMessage seen w = (None, w).
Proof.
  intros H. unfold sendMessage. rewrite H. by rewrite orb_true_r.
Qed.

Lemma sendMessage_settles (r : option ChatData) (w : World) :
  messages (react (after (sendMessage_resume r) w)) =
    messages (react w) ++ [replyEntry r]
  /\ isLoading (react (after (sendMessage_resume r) w)) = false
  /\ left (sendMessage_resume r) w = None.
Proof. by destruct r. Qed.

(** C7.  When the input is empty or made of white space only, submitting
    does nothing: the handler leaves no request behind and the world, with
    its log and the list of requests sent, is the one before. *)
Theorem send_blank_input_is_noop (w : World) :
  forallb isWhite (input (react w)) = true ->
  sendMessage (react w) w = (None, w).
Proof.
  intros H. unfold sendMessage.
  by rewrite (proj2 (blank_iff _) H).
Qed.

Lemma send_blank_input_is_noop_witness :
  forallb isWhite (input (react blankWorld)) = true
  /\ sendMessage (react blankWorld) blankWorld = (None, blankWorld).
Proof.
  split; [reflexivity|].
  apply (send_blank_input_is_noop blankWorld). reflexivity.
Defined.

(** C1, as stated, fails: a send that fails appends the user entry and the
    error entry, two entries; and a send submitted while another is pending
    appends nothing. *)
Lemma send_growth_counterexample :
  ~ growthAsSpecified None askingWorld
  /\ ~ growthAsSpecified (Some answered) busyWorld.
Proof. split; vm_compute; discriminate. Qed.

(** C1, amended.  A send submitted to a render that sees an input that is
    not blank and the loading flag down grows the log by exactly two entries
    whether the remote call succeeds or fails: the user entry, then the
    assistant entry or the error entry.  The settling appends its one entry
    to whatever the log is by then.  A send submitted to a render that sees
    the loading flag up appends nothing and requests nothing: the world is
    the one before. *)
Theorem send_grows_log_by_two
    (r : option ChatData) (seen : State) (w : World) :
  (falsy (trim (input seen)) = false ->
   isLoading seen = false ->
   left (sendMessage seen) w
     = Some (sendMessage_k (sessionId seen) (input seen))
   /\ messages (react (sendFromThenSettle seen r w)) =
        messages (react w) ++ [userMessage (input seen); replyEntry r]
   /\ length (messages (react (sendFromThenSettle seen r w))) =
        (length (messages (react w)) + 2)%nat
   /\ forall w' : World,
        messages (react (after (sendMessage_resume r) w')) =
        messages (react w') ++ [replyEntry r])
  /\ (isLoading seen = true ->
      sendMessage seen w = (None, w)
      /\ sendFromThenSettle seen r w = w)
  /\ sendThenSettle r w = sendFromThenSettle (react w) r w.
Proof.
  split; [|split; [|reflexivity]].
  - intros Hin Hload.
    assert (E : messages (react (sendFromThenSettle seen r w)) =
                messages (react w) ++ [userMessage (input seen); replyEntry r]).
    { unfold sendFromThenSettle.
      rewrite (sendMessage_begins_from seen w Hin Hload). cbn [fst snd].
      destruct (sendMessage_settles r (sendMessage seen w).2) as [E _].
      rewrite (sendMessage_begins_from seen w Hin Hload) in E.
      cbn [fst snd] in E. rewrite E. cbn [react messages]. by rewrite <- app_assoc. }
    split.
    { unfold left. by rewrite (sendMessage_begins_from seen w Hin Hload). }
    split; [exact E|]. split.
    + rewrite E, length_app. reflexivity.
    + intros w'. apply sendMessage_settles.
  - intros Hload. unfold sendFromThenSettle.
    by rewrite (sendMessage_refused seen w Hload).
Qed.

Lemma send_grows_log_by_two_witness :
  falsy (trim (input (react askingWorld))) = false
  /\ isLoading (react askingWorld) = false
  /\ length (messages (react (sendThenSettle None askingWorld))) = 2%nat
  /\ length (messages (react (sendThenSettle (Some answered) askingWorld)))
     = 2%nat
  /\ isLoading (react busyWorld) = true
  /\ sendMessage (react busyWorld) busyWorld = (None, busyWorld).
Proof.
  split; [reflexivity|]. split; [reflexivity|]. split; [|split].
  - apply (send_grows_log_by_two None (react askingWorld) askingWorld);
      reflexivity.
  - apply (send_grows_log_by_two (Some answered) (react askingWorld)
             askingWorld); reflexivity.
  - split; [reflexivity|].
    apply (send_grows_log_by_two None (react busyWorld) busyWorld).
    reflexivity.
Defined.

(** C2, as stated, fails: a response whose [sources] is the empty list
    yields an entry that has a [sources] field, the empty list. *)
Lemma sources_counterexample :
  sources (assistantReply answeredWithoutSources) = Some []
  /\ ~ sourcesAsSpecified answeredWithoutSources.
Proof.
  split; [reflexivity|].
  intros [H _]. destruct H as (c & cs & H); [by eexists|]. discriminate H.
Qed.

(** C2, amended.  The entry appended by a successful send has a [sources]
    field exactly when the response has one, empty or not, and it is the
    list of the response: one citation gives [sources] of length one, the
    empty list gives [sources] of length zero. *)
Theorem reply_keeps_sources_of_response (data : ChatData) (w : World) :
  messages (react (after (sendMessage_resume (Some data)) w)) =
    messages (react w) ++ [assistantReply data]
  /\ role (assistantReply data) = assistant
  /\ content (assistantReply data) = orElse (answer data) noResponse
  /\ sources (assistantReply data) = cited data
  /\ length <$> sources (assistantReply answered) = Some 1%nat
  /\ length <$> sources (assistantReply answeredWithoutSources) = Some 0%nat.
Proof.
  split; [reflexivity|].
  unfold assistantReply. by destruct (cited data).
Qed.

(** ** The registry at startup (lines 37-39) *)

Lemma mount_absent_registry (store : gmap (list N) (list N)) :
  store !! chat_history_list = None ->
  exists w p, mount store = Ready w p /\ historyList (react w) = [].
Proof.
  intros H. unfold mount, storedRegistry. rewrite H.
  change (JSON_parse (orElse None (js "[]"))) with (Some (JArray [])).
  simpl. eexists _, _. split; [reflexivity|].
  unfold initSession. run.
  by destruct (store !! chat_session_id) as [[|? ?]|].
Qed.

Lemma mount_unparsable_registry (store : gmap (list N) (list N)) text :
  store !! chat_history_list = Some text ->
  falsy text = false ->
  JSON_parse text = None ->
  mount store = Uncaught.
Proof.
  intros H Hf Hp. unfold mount, storedRegistry. rewrite H. simpl.
  by rewrite Hf, Hp.
Qed.

(** A fresh start on an empty store: the creation is requested, and once
    it answers [abc] the registry, the stored id and the log are as
    expected; the stored registry, read back, is too once the next render
    has run the updater. *)
Example fresh_start_scenario :
  mount ∅ = Ready (after createSession freshWorld) (Some createSession_k)
  /\ sessionId (react oneSessionWorld) = Some (js "abc")
  /\ historyList (react oneSessionWorld) = [abcItem]
  /\ messages (react oneSessionWorld) = [initialAssistantMessage]
  /\ localStorage oneSessionWorld !! chat_session_id = Some (js "abc")
  /\ localStorage oneSessionWorld !! chat_history_list = None
  /\ (text ← localStorage (after runUpdaters oneSessionWorld)
               !! chat_history_list;
      v ← JSON_parse text; asHistoryList v) = Some [abcItem].
Proof. by vm_compute. Qed.

(** A start with the id [abc] stored: its history is requested, and the one
    entry returned becomes the log. *)
Example stored_session_scenario :
  exists w,
    mount {[ chat_session_id := js "abc" ]}
      = Ready w (Some (fetchHistory_k (js "abc")))
    /\ sessionId (react w) = Some (js "abc")
    /\ fetched w = [GET_history (js "abc")]
    /\ messages (react (after (fetchHistory_resume (Some (Some [hiMessage]))) w))
       = [hiMessage].
Proof. eexists. by vm_compute. Qed.

(** C3.  With the text [{] stored under [chat_history_list], [JSON.parse]
    throws and nothing catches it: mounting ends in the uncaught error, not
    in a component with an empty registry. *)
Theorem malformed_registry_is_uncaught :
  malformedStore !! chat_history_list = Some (js "{")
  /\ JSON_parse (js "{") = None
  /\ mount malformedStore = Uncaught.
Proof. by vm_compute. Qed.

(** ** Failures of the remote calls *)

(** C4, as stated, fails: when the creation of the first session fails the
    log stays empty, and it shows neither the greeting nor the error
    entry; the same holds when the history cannot be fetched. *)
Lemma failure_fallback_counterexample :
  messages (react (after (resume [] createSession_k None) freshWorld)) = []
  /\ ~ fallbackAsSpecified [] createSession_k freshWorld
  /\ ~ fallbackAsSpecified [] (fetchHistory_k (js "abc")) freshWorld.
Proof.
  split; [reflexivity|].
  split; intros [H|H]; inversion H.
Qed.

(** C4, amended.  Every failure of a remote call is caught where the call
    is made and recorded on the console with the label of the call; the
    handler ends there and starts nothing.  Only a failed send shows in the
    log, as the fixed error entry appended to it; a failed creation, history
    fetch, deletion or reset leaves the log, the session id, the registry
    and the store as they were. *)
Theorem failure_is_logged_and_contained
    (now : jsstring) (p : Pending) (w : World) :
  let w' := after (resume now p None) w in
  left (resume now p None) w = None
  /\ console w' = console w ++ [failureLabel p]
  /\ messages (react w') =
       (if isSend p then messages (react w) ++ [errorMessage]
        else messages (react w))
  /\ (isSend p = false -> react w' = react w)
  /\ localStorage w' = localStorage w
  /\ fetched w' = fetched w
  /\ alerts w' = alerts w.
Proof.
  destruct p; simpl; repeat split; try done.
  all: by destruct w as [[]].
Qed.

Lemma failure_is_logged_and_contained_witness :
  isSend createSession_k = false
  /\ react (after (resume [] createSession_k None) freshWorld)
     = react freshWorld.
Proof.
  split; [reflexivity|].
  apply (failure_is_logged_and_contained [] createSession_k freshWorld).
  reflexivity.
Defined.

(** ** Deleting a session (lines 111-117) *)



(** ** Loading a history (lines 86-98) *)

(** C6.  Loading the history of a session asks the service for it and, when
    the answer arrives, replaces the whole log whatever it was: by the
    history returned when that is not empty, with no greeting before it, and
    by the greeting alone when the history is empty or absent. *)
Theorem history_load_replaces_log (sid : jsstring) (w : World) :
  left (fetchHistory sid) w = Some (fetchHistory_k sid)
  /\ fetched (after (fetchHistory sid) w) = fetched w ++ [GET_history sid]
  /\ react (after (fetchHistory sid) w) = react w
  /\ (forall (w' : World) (m : Message) (history : list Message),
        messages (react (after (fetchHistory_resume (Some (Some (m :: history)))) w'))
        = m :: history)
  /\ (forall w' : World,
        messages (react (after (fetchHistory_resume (Some (Some []))) w'))
        = [initialAssistantMessage])
  /\ (forall w' : World,
        messages (react (after (fetchHistory_resume (Some None)) w'))
        = [initialAssistantMessage]).
Proof. by repeat split. Qed.

(** ** Resetting the chat (lines 143-155) *)

(** C8.  With an active session (a current id, which the test [!sessionId]
    takes to be a non-empty string), a confirmed reset sends the deletion of
    the current id and, once that succeeds, replaces the log by the greeting
    alone; the session id, the registry, the input, the loading flag and
    the store, with both of its keys, are what they were.  With no active
    session a reset does nothing. *)
Theorem reset_replaces_log_only (w : World) :
  (forall sid : jsstring,
     sessionId (react w) = Some sid ->
     falsy sid = false ->
     handleResetChat (react w) true w =
       (Some (handleResetChat_k sid),
        {| react := react w; localStorage := localStorage w;
           fetched := fetched w ++ [DELETE_session sid];
           console := console w; alerts := alerts w; queued := queued w |})
     /\ forall w' : World,
          handleResetChat_resume (Some ()) w' =
          (None,
           {| react :=
                {| sessionId := sessionId (react w');
                   messages := [initialAssistantMessage];
                   input := input (react w');
                   isLoading := isLoading (react w');
                   historyList := historyList (react w') |};
              localStorage := localStorage w';
              fetched := fetched w'; console := console w';
              alerts := alerts w'; queued := queued w' |}))
  /\ (sessionId (react w) = None ->
      forall confirm : bool, handleResetChat (react w) confirm w = (None, w)).
Proof.
  split.
  - intros sid Hsid Hf. split; [|done].
    unfold handleResetChat. by rewrite Hsid, Hf.
  - intros Hsid confirm. unfold handleResetChat. by rewrite Hsid.
Qed.

Lemma reset_replaces_log_only_witness :
  sessionId (react oneSessionWorld) = Some (js "abc")
  /\ falsy (js "abc") = false
  /\ left (handleResetChat (react oneSessionWorld) true) oneSessionWorld
     = Some (handleResetChat_k (js "abc"))
  /\ sessionId (react freshWorld) = None
  /\ handleResetChat (react freshWorld) true freshWorld = (None, freshWorld).
Proof.
  split; [reflexivity|]. split; [reflexivity|]. split.
  - unfold left.
    destruct (reset_replaces_log_only oneSessionWorld) as [H _].
    destruct (H (js "abc") eq_refl eq_refl) as [E _].
    rewrite E. reflexivity.
  - split; [reflexivity|].
    apply (reset_replaces_log_only freshWorld). reflexivity.
Defined.

(** ** Switching sessions (lines 104-109) *)



(** ** One send at a time (lines 159, 164, 190-192) *)

Lemma sends_app (l l' : list Pending) :
  sends (l ++ l') = (sends l + sends l')%nat.
Proof. induction l as [|p l IH]; simpl; [done|]. rewrite IH. lia. Qed.

Lemma sends_delete (l : list Pending) (i : nat) (p : Pending) :
  l !! i = Some p ->
  sends l = ((if isSend p then 1 else 0) + sends (delete i l))%nat.
Proof.
  revert i. induction l as [|q l IH]; intros [|i] H; simpl in *; try done.
  - by injection H as ->.
  - rewrite (IH i H). lia.
Qed.

Lemma handle_keeps_flag (e : Event) (seen : State) (w : World) :
  e <> Submit ->
  isLoading (react (after (handle e seen) w)) = isLoading (react w)
  /\ sends (option_list (left (handle e seen) w)) = 0%nat.
Proof.
  intros He. destruct e; try done; run.
  - by case_bool_decide.
  - by repeat case_match.
  - by repeat case_match.
Qed.

Lemma resume_keeps_flag (now : jsstring) (p : Pending)
    (r : option (Data (request p))) (w : World) :
  isSend p = false ->
  isLoading (react (after (resume now p r) w)) = isLoading (react w)
  /\ sends (option_list (left (resume now p r) w)) = 0%nat.
Proof.
  intros Hp. destruct p; try done; simpl in r; run.
  - by destruct r.
  - by destruct r as [[[|? ?]|]|].
  - destruct r; [|done]. case_bool_decide; [|done].
    destruct (filter _ _); [done|]. run. by case_bool_decide.
  - by destruct r.
Qed.

(** What a submit does to the flag and to the sends in flight: nothing,
    or it raises the flag and adds one send. *)
Lemma submit_cases (seen : State) (w : World) :
  sendMessage seen w = (None, w)
  \/ (isLoading seen = false
      /\ isLoading (react (after (sendMessage seen) w)) = true
      /\ sends (option_list (left (sendMessage seen) w)) = 1%nat).
Proof.
  unfold sendMessage. destruct (falsy (trim (input seen))); [by left|].
  destruct (isLoading seen); [by left|]. by right.
Qed.

Lemma dispatch_flagBacked (e : Event) (sys : System) :
  flagBacked sys -> flagBacked (dispatch e sys).
Proof.
  unfold flagBacked, dispatch. intros H. cbn [world inFlight].
  rewrite sends_app.
  assert (e = Submit \/ e <> Submit) as [->|He]
    by (destruct e; (by left) || (by right)).
  - cbn [handle].
    destruct (submit_cases (rendered sys) (world sys)) as [E|(_ & _ & E)].
    + rewrite E. cbn [fst snd]. intros Hl. specialize (H Hl). lia.
    + unfold left in E. rewrite E. lia.
  - destruct (handle_keeps_flag e (rendered sys) (world sys) He)
      as [Hflag Hnone].
    unfold left, after in *. rewrite Hflag, Hnone. intros Hl.
    specialize (H Hl). lia.
Qed.

Lemma settle_flagBacked i p now r (sys : System) :
  inFlight sys !! i = Some p ->
  flagBacked sys -> flagBacked (settle i p now r sys).
Proof.
  unfold flagBacked, settle. intros Hi H. cbn [world inFlight].
  rewrite sends_app. rewrite (sends_delete _ _ _ Hi) in H.
  destruct (isSend p) eqn:Hp.
  - destruct p; try discriminate Hp. simpl in r.
    destruct (sendMessage_settles r (world sys)) as (_ & Hflag & _).
    unfold after in *. cbn [resume]. by rewrite Hflag.
  - destruct (resume_keeps_flag now p r (world sys) Hp) as [Hflag Hnone].
    unfold left, after in *. rewrite Hflag, Hnone. intros Hl.
    specialize (H Hl). lia.
Qed.

Lemma mount_flags store w p :
  mount store = Ready w p ->
  isLoading (react w) = false /\ sends (option_list p) = 0%nat.
Proof.
  unfold mount. destruct (storedRegistry store) as [v|]; [|done].
  destruct (asHistoryList v) as [l|]; [|done].
  intros [= <- <-]. unfold initSession. run.
  by destruct (store !! chat_session_id) as [[|? ?]|].
Qed.

Lemma reachable_flagBacked (sys : System) : reachable sys -> flagBacked sys.
Proof.
  intros (store & w & p & Hm & Hsteps).
  assert (H0 : flagBacked (started w p)).
  { destruct (mount_flags store w p Hm) as [Hl _].
    unfold flagBacked. cbn [started world]. by rewrite Hl. }
  induction Hsteps as [|x y z Hstep _ IH]; [done|].
  apply IH. destruct Hstep.
  - by apply dispatch_flagBacked.
  - by apply settle_flagBacked.
  - exact H0.
Qed.

Lemma ui_event_keeps (e : Event) (sys : System) :
  e <> Submit ->
  singleFlight sys /\ flagShown sys ->
  singleFlight (dispatch e sys) /\ flagShown (dispatch e sys).
Proof.
  intros He [H J]. unfold singleFlight, flagShown, dispatch in *.
  cbn [world inFlight rendered]. rewrite sends_app.
  destruct (handle_keeps_flag e (rendered sys) (world sys) He)
    as [Hflag Hnone].
  unfold left, after in *. rewrite Hflag, Hnone. split; [lia|done].
Qed.

Lemma ui_submit_keeps (sys : System) :
  singleFlight sys /\ flagShown sys ->
  singleFlight (commit (dispatch Submit sys))
  /\ flagShown (commit (dispatch Submit sys)).
Proof.
  intros [H J]. unfold singleFlight, flagShown, commit, dispatch in *.
  cbn [world inFlight rendered handle runUpdaters snd react].
  split; [|done]. rewrite sends_app.
  destruct (submit_cases (rendered sys) (world sys)) as [E|(Hs & Hl & E)].
  - rewrite E. cbn [fst snd]. rewrite H. simpl. lia.
  - unfold left, after in *. rewrite E, Hl, H, (J Hs). lia.
Qed.

Lemma ui_settle_keeps i p now r (sys : System) :
  inFlight sys !! i = Some p ->
  singleFlight sys /\ flagShown sys ->
  singleFlight (settle i p now r sys) /\ flagShown (settle i p now r sys).
Proof.
  intros Hi [H J]. unfold singleFlight, flagShown, settle in *.
  cbn [world inFlight rendered].
  rewrite sends_app. rewrite (sends_delete _ _ _ Hi) in H.
  destruct (isSend p) eqn:Hp.
  - destruct p; try discriminate Hp. simpl in r.
    destruct (sendMessage_settles r (world sys)) as (_ & Hflag & Hnone).
    unfold left, after in *. cbn [resume]. rewrite Hflag, Hnone.
    change (sends (option_list None)) with 0%nat.
    split; [|done]. destruct (isLoading (react (world sys))); lia.
  - destruct (resume_keeps_flag now p r (world sys) Hp) as [Hflag Hnone].
    unfold left, after in *. rewrite Hflag, Hnone. split; [lia|done].
Qed.

Lemma ui_commit_keeps (sys : System) :
  singleFlight sys /\ flagShown sys ->
  singleFlight (commit sys) /\ flagShown (commit sys).
Proof.
  intros [H J]. unfold singleFlight, flagShown, commit in *.
  cbn [world inFlight rendered runUpdaters snd react]. by split.
Qed.

Lemma uiReachable_singleFlight (sys : System) :
  uiReachable sys -> singleFlight sys /\ flagShown sys.
Proof.
  intros (store & w & p & Hm & Hsteps).
  assert (H0 : singleFlight (started w p) /\ flagShown (started w p)).
  { destruct (mount_flags store w p Hm) as [Hl Hs].
    unfold singleFlight, flagShown. cbn [started world inFlight].
    by rewrite Hl, Hs. }
  induction Hsteps as [|x y z Hstep _ IH]; [done|].
  apply IH. destruct Hstep.
  - by apply ui_event_keeps.
  - by apply ui_submit_keeps.
  - by apply ui_settle_keeps.
  - by apply ui_commit_keeps.
Qed.

Lemma typedSystem_steps : rtc step afterMount typedSystem.
Proof.
  unfold typedSystem, greetedSystem.
  eapply rtc_r; [|apply step_commit].
  eapply rtc_r; [|apply step_event].
  eapply rtc_r; [|by apply step_settle].
  apply rtc_refl.
Qed.

Lemma askedSystem_reachable : reachable askedSystem.
Proof.
  exists ∅, (after createSession freshWorld), (Some createSession_k).
  split; [reflexivity|]. unfold askedSystem.
  eapply rtc_r; [|apply step_commit].
  eapply rtc_r; [|apply step_event].
  apply typedSystem_steps.
Qed.

Lemma askedSystem_uiReachable : uiReachable askedSystem.
Proof.
  exists ∅, (after createSession freshWorld), (Some createSession_k).
  split; [reflexivity|]. unfold askedSystem, typedSystem, greetedSystem.
  eapply rtc_r; [|apply ui_submit].
  eapply rtc_r; [|apply ui_commit].
  eapply rtc_r; [|by apply ui_event].
  eapply rtc_r; [|by apply ui_settle].
  apply rtc_refl.
Qed.

Lemma doubleSubmitted_reachable : reachable doubleSubmitted.
Proof.
  exists ∅, (after createSession freshWorld), (Some createSession_k).
  split; [reflexivity|]. unfold doubleSubmitted.
  eapply rtc_r; [|apply step_event].
  eapply rtc_r; [|apply step_event].
  apply typedSystem_steps.
Qed.

(** C10, as stated, fails: the guard of line 159 reads the flag that the
    render saw.  When the question is submitted twice to the handler of the
    same render, both submits pass the guard and two sends are in flight. *)
Lemma double_submit_counterexample :
  reachable doubleSubmitted
  /\ isLoading (rendered typedSystem) = false
  /\ sends (inFlight doubleSubmitted) = 2%nat
  /\ ~ (sends (inFlight doubleSubmitted) <= 1)%nat.
Proof.
  split; [exact doubleSubmitted_reachable|]. split; [reflexivity|].
  split; [reflexivity|]. vm_compute. lia.
Qed.

(** C10, amended.  The settling of a send, success or failure, puts the
    loading flag down and starts nothing.  In every state the component can
    reach, whatever render handles the events, the flag is up only while a
    send is in flight: once the sends have settled the interface is not left
    disabled.  When a render is committed after each submit, before the next
    user action, at most one send is in flight, the flag is up exactly while
    one is, and none is while the screen shows the flag down. *)
Theorem send_is_single_flight :
  (forall (r : option ChatData) (w : World),
     isLoading (react (after (sendMessage_resume r) w)) = false
     /\ left (sendMessage_resume r) w = None)
  /\ (forall sys : System,
        reachable sys ->
        isLoading (react (world sys)) = true ->
        (1 <= sends (inFlight sys))%nat)
  /\ (forall sys : System,
        uiReachable sys ->
        (sends (inFlight sys) <= 1)%nat
        /\ (isLoading (react (world sys)) = true <->
            sends (inFlight sys) = 1%nat)
        /\ (isLoading (rendered sys) = false ->
            sends (inFlight sys) = 0%nat)).
Proof.
  split; [|split].
  - intros r w. by destruct (sendMessage_settles r w) as (_ & ? & ?).
  - intros sys H%reachable_flagBacked. exact H.
  - intros sys [H J]%uiReachable_singleFlight.
    unfold singleFlight, flagShown in *. rewrite H. split; [|split].
    + destruct (isLoading _); lia.
    + destruct (isLoading _); split; done.
    + intros Hs. by rewrite (J Hs).
Qed.

Lemma send_is_single_flight_witness :
  reachable askedSystem
  /\ uiReachable askedSystem
  /\ isLoading (react (world askedSystem)) = true
  /\ sends (inFlight askedSystem) = 1%nat.
Proof.
  split; [exact askedSystem_reachable|].
  split; [exact askedSystem_uiReachable|].
  split; [reflexivity|].
  apply (proj2 (proj2 send_is_single_flight) askedSystem
           askedSystem_uiReachable).
  reflexivity.
Defined.

(** * Further properties *)

(** ** The registry text reads back (lines 38, 78, 125) *)

Lemma hexValue_hexDigit (n : N) : n < 16 -> hexValue (hexDigit n) = Some n.
Proof.
  intros H. unfold hexDigit, hexValue, isDigit.
  destruct (N.ltb_spec n 10).
  - replace (48 <=? 48 + n) with true by (symmetry; apply N.leb_le; lia).
    replace (48 + n <=? 57) with true by (symmetry; apply N.leb_le; lia).
    simpl. f_equal. lia.
  - replace (87 + n <=? 57) with false by (symmetry; apply N.leb_gt; lia).
    rewrite andb_false_r.
    replace (97 <=? 87 + n) with true by (symmetry; apply N.leb_le; lia).
    replace (87 + n <=? 102) with true by (symmetry; apply N.leb_le; lia).
    simpl. f_equal. lia.
Qed.

Lemma hex_digits_value (c : N) :
  c < 65536 ->
  16 * (16 * (16 * (16 * 0 + c / 4096 mod 16) + c / 256 mod 16)
        + c / 16 mod 16) + c mod 16 = c.
Proof.
  intros H.
  replace (c / 4096) with (c / 16 / 16 / 16)
    by (rewrite !N.Div0.div_div; reflexivity).
  replace (c / 256) with (c / 16 / 16)
    by (rewrite !N.Div0.div_div; reflexivity).
  pose proof (N.div_mod c 16 ltac:(lia)).
  pose proof (N.div_mod (c / 16) 16 ltac:(lia)).
  pose proof (N.div_mod (c / 16 / 16) 16 ltac:(lia)).
  assert (c / 16 / 16 / 16 < 16).
  { rewrite !N.Div0.div_div. apply N.Div0.div_lt_upper_bound. exact H. }
  rewrite (N.mod_small (c / 16 / 16 / 16) 16) by assumption.
  lia.
Qed.

Lemma lex_skip st c st' (s : jsstring) :
  lexStep st c = Some ([], st') -> lex st (c :: s) = lex st' s.
Proof. intros H. simpl. rewrite H. simpl. by destruct (lex st' s). Qed.

Lemma lex_emit st c ts st' (s : jsstring) rest :
  lexStep st c = Some (ts, st') -> lex st' s = Some rest ->
  lex st (c :: s) = Some (ts ++ rest).
Proof. intros H Hs. simpl. rewrite H. simpl. by rewrite Hs. Qed.

Lemma lexStep_literal acc (c : N) :
  (c =? 34) = false -> (c =? 92) = false -> (c <? 32) = false ->
  lexStep (LString acc) c = Some ([], LString (c :: acc)).
Proof. intros H1 H2 H3. simpl. by rewrite H1, H2, H3. Qed.

Lemma lexStep_hex acc seen v (n : N) :
  n < 16 ->
  lexStep (LHex acc seen v) (hexDigit n) =
  Some ([], if (seen =? 3)%nat then LString ((16 * v + n) :: acc)
            else LHex acc (S seen) (16 * v + n)).
Proof.
  intros H. simpl. rewrite (hexValue_hexDigit n H). simpl.
  by destruct (seen =? 3)%nat.
Qed.

Lemma lex_unicodeEscape acc (c : N) (tail : jsstring) :
  c < 65536 ->
  lex (LString acc) (unicodeEscape c ++ tail) = lex (LString (c :: acc)) tail.
Proof.
  intros H. unfold unicodeEscape. cbn [app].
  erewrite lex_skip by reflexivity.
  erewrite lex_skip by reflexivity.
  erewrite lex_skip by (apply lexStep_hex, N.mod_lt; lia).
  erewrite lex_skip by (apply lexStep_hex, N.mod_lt; lia).
  erewrite lex_skip by (apply lexStep_hex, N.mod_lt; lia).
  erewrite lex_skip by (apply lexStep_hex, N.mod_lt; lia).
  cbn [Nat.eqb]. by rewrite (hex_digits_value c H).
Qed.

Lemma lex_quoteUnit acc (c : N) (tail : jsstring) :
  lex (LString acc) (quoteUnit c ++ tail) = lex (LString (c :: acc)) tail.
Proof.
  unfold quoteUnit.
  repeat match goal with
  | |- context [if ?c =? ?k then _ else _] =>
      destruct (N.eqb_spec c k) as [->|?];
        [try match goal with
             | |- context [js ?s] =>
                 let v := eval vm_compute in (js s) in change (js s) with v
             end;
         cbn [app]; by do 2 (erewrite lex_skip by reflexivity)|]
  end.
  destruct (_ || _) eqn:E.
  - apply lex_unicodeEscape.
    unfold isLeadSurrogate, isTrailSurrogate in E.
    rewrite !orb_true_iff, !andb_true_iff, N.ltb_lt, !N.leb_le in E. lia.
  - apply orb_false_iff in E as [[E _]%orb_false_iff _].
    apply lex_skip, lexStep_literal; [by apply N.eqb_neq..|done].
Qed.

Lemma list_two_step_ind {A} (P : list A -> Prop) :
  P [] -> (forall c, P [c]) ->
  (forall c d s, P s -> P (d :: s) -> P (c :: d :: s)) ->
  forall s, P s.
Proof.
  intros H0 H1 H2 s.
  assert (P s /\ forall c, P (c :: s)) as [H _]; [|exact H].
  induction s as [|d s [IH1 IH2]]; [by split|].
  split; [apply IH2|]. intros c. apply H2; [exact IH1 | apply IH2].
Qed.

Lemma lex_closing_quote acc (rest : jsstring) ts :
  lex LIdle rest = Some ts ->
  lex (LString acc) (34 :: rest) = Some (TString (rev acc) :: ts).
Proof. intros H. by apply (lex_emit _ _ [TString (rev acc)] LIdle). Qed.

Lemma lex_quoteUnits (s : jsstring) :
  forall acc (rest : jsstring) ts,
    lex LIdle rest = Some ts ->
    lex (LString acc) (quoteUnits s ++ 34 :: rest)
    = Some (TString (rev acc ++ s) :: ts).
Proof.
  induction s as [|c|c d s IHs IHd] using list_two_step_ind;
    intros acc rest ts H.
  - rewrite app_nil_r. by apply lex_closing_quote.
  - cbn [quoteUnits]. rewrite lex_quoteUnit.
    by rewrite (lex_closing_quote (c :: acc) rest ts H).
  - change (quoteUnits (c :: d :: s)) with
      (if isLeadSurrogate c && isTrailSurrogate d
       then c :: d :: quoteUnits s
       else quoteUnit c ++ quoteUnits (d :: s)).
    destruct (isLeadSurrogate c && isTrailSurrogate d) eqn:E.
    + apply andb_true_iff in E as [Hc Hd].
      unfold isLeadSurrogate in Hc. unfold isTrailSurrogate in Hd.
      apply andb_true_iff in Hc as [Hc _]. apply andb_true_iff in Hd as [Hd _].
      apply N.leb_le in Hc, Hd. cbn [app].
      rewrite (lex_skip _ c (LString (c :: acc)))
        by (apply lexStep_literal;
            [apply N.eqb_neq; lia | apply N.eqb_neq; lia | apply N.ltb_ge; lia]).
      rewrite (lex_skip _ d (LString (d :: c :: acc)))
        by (apply lexStep_literal;
            [apply N.eqb_neq; lia | apply N.eqb_neq; lia | apply N.ltb_ge; lia]).
      rewrite (IHs _ _ _ H). cbn [rev]. by rewrite <- !app_assoc.
    + rewrite <- app_assoc, lex_quoteUnit.
      rewrite (IHd _ _ _ H). cbn [rev]. by rewrite <- app_assoc.
Qed.

Lemma lex_quote (s rest : jsstring) ts :
  lex LIdle rest = Some ts ->
  lex LIdle (quote s ++ rest) = Some (TString s :: ts).
Proof.
  intros H. unfold quote. rewrite <- !app_assoc. cbn [app].
  erewrite lex_skip by reflexivity.
  exact (lex_quoteUnits s [] rest ts H).
Qed.

Lemma lex_stringifyItem (item : HistoryItem) (rest : jsstring) ts :
  lex LIdle rest = Some ts ->
  lex LIdle (stringifyItem item ++ rest) = Some (itemTokens item ++ ts).
Proof.
  intros H. unfold stringifyItem.
  change (js "{") with [123]. change (js ":") with [58].
  change (js ",") with [44]. change (js "}") with [125].
  rewrite <- !app_assoc. cbn [app].
  apply (lex_emit _ _ [TLBrace] LIdle); [reflexivity|].
  apply lex_quote.
  apply (lex_emit _ _ [TColon] LIdle); [reflexivity|].
  apply lex_quote.
  apply (lex_emit _ _ [TComma] LIdle); [reflexivity|].
  apply lex_quote.
  apply (lex_emit _ _ [TColon] LIdle); [reflexivity|].
  apply lex_quote.
  by apply (lex_emit _ _ [TRBrace] LIdle).
Qed.

Lemma lex_commaSeparated (l : list HistoryItem) (rest : jsstring) ts :
  lex LIdle rest = Some ts ->
  lex LIdle (commaSeparated (stringifyItem <$> l) ++ rest)
  = Some (listTokens l ++ ts).
Proof.
  intros H. induction l as [|x [|y l] IH]; [done| |].
  - by apply lex_stringifyItem.
  - change (commaSeparated (stringifyItem <$> x :: y :: l)) with
      (stringifyItem x ++ [44] ++ commaSeparated (stringifyItem <$> y :: l)).
    change (listTokens (x :: y :: l)) with
      (itemTokens x ++ TComma :: listTokens (y :: l)).
    rewrite <- !app_assoc. apply lex_stringifyItem.
    by apply (lex_emit _ _ [TComma] LIdle).
Qed.

Lemma lex_JSON_stringify (l : list HistoryItem) :
  lex LIdle (JSON_stringify l)
  = Some (TLBracket :: listTokens l ++ [TRBracket]).
Proof.
  unfold JSON_stringify. change (js "[") with [91]. change (js "]") with [93].
  apply (lex_emit _ _ [TLBracket] LIdle); [reflexivity|].
  apply lex_commaSeparated. by apply (lex_emit _ _ [TRBracket] LIdle).
Qed.

Lemma parse_itemTokens items stack mode (x : HistoryItem) ts :
  mode = PValue \/ mode = PArrayStart ->
  parseTokens (FArray items :: stack) mode (itemTokens x ++ ts)
  = parseTokens (FArray (itemJson x :: items) :: stack) PAfter ts.
Proof. by intros [-> | ->]. Qed.

Lemma parse_listTokens (l : list HistoryItem) :
  forall items mode, l <> [] ->
    mode = PValue \/ mode = PArrayStart ->
    parseTokens [FArray items] mode (listTokens l ++ [TRBracket])
    = Some (JArray (rev items ++ (itemJson <$> l))).
Proof.
  induction l as [|x [|y l] IH]; intros items mode Hl Hm; [done| |].
  - cbn [listTokens]. rewrite parse_itemTokens by done. reflexivity.
  - change (listTokens (x :: y :: l)) with
      (itemTokens x ++ TComma :: listTokens (y :: l)).
    rewrite <- app_assoc, parse_itemTokens by done.
    cbn [app parseTokens parseStep mbind option_bind].
    rewrite IH by auto. cbn [rev fmap list_fmap]. by rewrite <- app_assoc.
Qed.

Lemma asHistoryList_itemJson (l : list HistoryItem) :
  asHistoryList (JArray (itemJson <$> l)) = Some l.
Proof.
  cbn [asHistoryList]. induction l as [|[a b] l IH]; [done|].
  rewrite fmap_cons. cbn [mapM]. rewrite IH. reflexivity.
Qed.

Lemma JSON_parse_stringify (l : list HistoryItem) :
  JSON_parse (JSON_stringify l) = Some (JArray (itemJson <$> l)).
Proof.
  unfold JSON_parse. rewrite lex_JSON_stringify. cbn [mbind option_bind].
  destruct l as [|x l]; [reflexivity|].
  cbn [parseTokens parseStep startValue mbind option_bind].
  by rewrite parse_listTokens by auto.
Qed.

Lemma registry_reads_back (l : list HistoryItem) :
  (v ← JSON_parse (JSON_stringify l); asHistoryList v) = Some l.
Proof. rewrite JSON_parse_stringify. apply asHistoryList_itemJson. Qed.

(** X1.  Whatever the registry, the text the component stores for it is
    accepted by [JSON.parse] and reads back as the same registry, code unit
    for code unit: quotes, backslashes, control characters and unpaired
    surrogates in an id or a date survive. *)
Theorem registry_text_round_trip (l : list HistoryItem) :
  JSON_parse (JSON_stringify l) = Some (JArray (itemJson <$> l))
  /\ (v ← JSON_parse (JSON_stringify l); asHistoryList v) = Some l.
Proof. split; [apply JSON_parse_stringify | apply registry_reads_back]. Qed.

(** ** The store mirrors the state (lines 38-48, 71-80, 106-107, 123-134) *)

Lemma keys_differ : chat_session_id <> chat_history_list.
Proof. by vm_compute. Qed.

Lemma readRegistry_of_text (l : list HistoryItem)
    (store : gmap (list N) (list N)) :
  store !! chat_history_list = Some (JSON_stringify l) ->
  readRegistry store = Some l.
Proof.
  intros H. unfold readRegistry, storedRegistry. rewrite H.
  change (orElse (Some (JSON_stringify l)) (js "[]")) with (JSON_stringify l).
  apply registry_reads_back.
Qed.

Lemma readRegistry_stored (l : list HistoryItem)
    (store : gmap (list N) (list N)) :
  readRegistry (<[chat_history_list := JSON_stringify l]> store) = Some l.
Proof. apply readRegistry_of_text, lookup_insert_eq. Qed.

Lemma readRegistry_other_insert (value : jsstring)
    (store : gmap (list N) (list N)) :
  readRegistry (<[chat_session_id := value]> store) = readRegistry store.
Proof.
  unfold readRegistry, storedRegistry.
  by rewrite lookup_insert_ne by apply keys_differ.
Qed.

Lemma readRegistry_other_delete (store : gmap (list N) (list N)) :
  readRegistry (delete chat_session_id store) = readRegistry store.
Proof.
  unfold readRegistry, storedRegistry.
  by rewrite lookup_delete_ne by apply keys_differ.
Qed.

Lemma session_lookup_through_registry (value : jsstring)
    (store : gmap (list N) (list N)) :
  <[chat_history_list := value]> store !! chat_session_id
  = store !! chat_session_id.
Proof. rewrite lookup_insert_ne; [done|]. intros E. by apply keys_differ. Qed.

Lemma handleLoadSession_stores_session (seen : State) sid (w : World) :
  sessionStored w -> sessionStored (after (handleLoadSession seen sid) w).
Proof.
  intros H. run. case_bool_decide; [done|]. apply lookup_insert_eq.
Qed.

Lemma handle_stores_session (e : Event) (seen : State) (w : World) :
  sessionStored w -> sessionStored (after (handle e seen) w).
Proof.
  intros H. destruct e.
  - exact H.
  - by apply handleLoadSession_stores_session.
  - run. by repeat case_match.
  - run. by repeat case_match.
  - exact H.
  - run. by repeat case_match.
Qed.

Lemma handle_keeps_registry_text (e : Event) (seen : State) (w : World) :
  readRegistry (localStorage (after (handle e seen) w))
    = readRegistry (localStorage w)
  /\ historyList (react (after (handle e seen) w)) = historyList (react w)
  /\ queued (after (handle e seen) w) = queued w.
Proof.
  destruct e; run; repeat case_match; run; try done.
  by rewrite readRegistry_other_insert.
Qed.

Lemma resume_stores_session now p r (w : World) :
  sessionStored w -> sessionStored (after (resume now p r) w).
Proof.
  intros H. destruct p; simpl in r; cbn [resume].
  - destruct r as [s|]; [|done]. unfold sessionStored. run.
    apply lookup_insert_eq.
  - by destruct r as [[[|??]|]|].
  - destruct r; [|done]. unfold handleDeleteSession_resume.
    set (l := filter _ _).
    assert (Hstored : sessionStored
      (after (setHistoryList l;; setItem chat_history_list (JSON_stringify l)) w)).
    { unfold sessionStored in *. run.
      by rewrite session_lookup_through_registry. }
    case_bool_decide; [|exact Hstored].
    destruct l as [|nextSession ?].
    + unfold sessionStored. run. by rewrite lookup_delete_eq.
    + by apply (handleLoadSession_stores_session seen (id nextSession))
        in Hstored.
  - by destruct r.
  - by destruct r.
Qed.

(** What the answer to a creation or a deletion leaves of the registry, in
    the state and in the store. *)
Lemma resume_registry now p r (w : World) :
  let w' := after (resume now p r) w in
  (readRegistry (localStorage w') = readRegistry (localStorage w)
   /\ ((historyList (react w') = historyList (react w) /\ queued w' = queued w)
       \/ (queuesUpdater p = true
           /\ queued w'
              = queued w
                ++ [(chat_history_list, JSON_stringify (historyList (react w')))])))
  \/ (readRegistry (localStorage w') = Some (historyList (react w'))
      /\ queued w' = queued w).
Proof.
  cbn zeta. destruct p; simpl in r; cbn [resume].
  - left. destruct r as [s|]; [|by split; [|left]]. split.
    + run. by rewrite readRegistry_other_insert.
    + right. by split.
  - left. by destruct r as [[[|??]|]|]; (split; [|left]).
  - destruct r; [|by left; split; [|left]]. right.
    unfold handleDeleteSession_resume. set (l := filter _ _).
    assert (Hstored : forall store, readRegistry
      (<[chat_history_list := JSON_stringify l]> store) = Some l)
      by (intros; apply readRegistry_stored).
    case_bool_decide; [|by split; [apply Hstored|]].
    destruct l as [|nextSession rest]; run.
    + split; [|done]. rewrite readRegistry_other_delete. apply Hstored.
    + case_bool_decide; run; (split; [|done]); [apply Hstored|].
      rewrite readRegistry_other_insert. apply Hstored.
  - left. by destruct r; (split; [|left]).
  - left. by destruct r; (split; [|left]).
Qed.

Lemma runUpdaters_registry (w : World) :
  Forall registryWrite (queued w) ->
  is_Some (readRegistry (localStorage w)) ->
  is_Some (readRegistry (localStorage (after runUpdaters w)))
  /\ localStorage (after runUpdaters w) !! chat_session_id
     = localStorage w !! chat_session_id.
Proof.
  unfold after. cbn [runUpdaters snd localStorage].
  generalize (localStorage w) as store.
  induction (queued w) as [|[key value] writes IH]; intros store Hw Hs;
    [done|].
  apply Forall_cons in Hw as [[Hkey [l Hl]] Hw]. cbn [fst snd] in *. subst.
  cbn [foldl fst snd].
  destruct (IH (<[chat_history_list := JSON_stringify l]> store) Hw) as [? E].
  { rewrite readRegistry_stored. by eexists. }
  split; [done|]. by rewrite E, session_lookup_through_registry.
Qed.

Lemma mount_restorable store w p : mount store = Ready w p -> mirrored w.
Proof.
  unfold mount. destruct (storedRegistry store) as [v|] eqn:Ev; [|done].
  destruct (asHistoryList v) as [l|] eqn:El; [|done].
  intros [= <- <-]. unfold initSession. run.
  assert (Hreg : readRegistry store = Some l).
  { unfold readRegistry. by rewrite Ev. }
  destruct (store !! chat_session_id) as [[|??]|] eqn:E;
    (split; [exact Hreg|]); unfold sessionStored; simpl; by rewrite ?E.
Qed.

Lemma mount_queues_nothing store w p : mount store = Ready w p -> queued w = [].
Proof.
  unfold mount. destruct (storedRegistry store) as [v|]; [|done].
  destruct (asHistoryList v) as [l|]; [|done].
  intros [= <- <-]. unfold initSession. run.
  by destruct (store !! chat_session_id) as [[|??]|].
Qed.

Lemma reachable_restorable (sys : System) :
  reachable sys -> restorable (world sys).
Proof.
  intros (store & w & p & Hm & Hsteps).
  assert (H0 : restorable (world (started w p))).
  { destruct (mount_restorable store w p Hm) as [Hreg Hid].
    split; [by eexists|]. split; [|exact Hid]. cbn [started world].
    rewrite (mount_queues_nothing store w p Hm). constructor. }
  induction Hsteps as [|x y z Hstep _ IH]; [done|].
  apply IH. destruct H0 as (Hreg & Hq & Hid).
  destruct Hstep as [e sys|i q now r sys Hi|sys].
  - destruct (handle_keeps_registry_text e (rendered sys) (world sys))
      as (E1 & _ & E2).
    split; [|split].
    + unfold dispatch, after in *. cbn [world]. by rewrite E1.
    + unfold dispatch, after in *. cbn [world]. by rewrite E2.
    + by apply handle_stores_session.
  - split; [|split]; [| |by apply resume_stores_session].
    + unfold settle. cbn [world].
      destruct (resume_registry now q r (world sys)) as [[E _]|[E _]];
        unfold after in E; rewrite E; [done|by eexists].
    + unfold settle. cbn [world].
      destruct (resume_registry now q r (world sys))
        as [[_ [[_ E]|[_ E]]]|[_ E]]; unfold after in E; rewrite E; try done.
      apply Forall_app. split; [done|]. apply Forall_singleton.
      split; [done|]. by eexists.
  - destruct (runUpdaters_registry (world sys) Hq Hreg) as [Hreg' E].
    split; [exact Hreg'|]. split; [constructor|].
    unfold sessionStored, commit in *. cbn [world]. unfold after in E.
    cbn [runUpdaters snd react] in *. by rewrite E.
Qed.

Lemma commit_settledMirror (sys : System) :
  settledMirror sys -> settledMirror (commit sys).
Proof.
  intros [[Hreg Hid] Hq]. unfold settledMirror, mirrored, sessionStored, commit in *.
  cbn [world runUpdaters snd react localStorage queued].
  rewrite Hq. by cbn [foldl].
Qed.

Lemma dispatch_settledMirror (e : Event) (sys : System) :
  settledMirror sys -> settledMirror (dispatch e sys).
Proof.
  intros [[Hreg Hid] Hq].
  destruct (handle_keeps_registry_text e (rendered sys) (world sys))
    as (E1 & E2 & E3).
  unfold settledMirror, mirrored, dispatch, after in *. cbn [world].
  rewrite E1, E2, E3. split; [|done]. split; [done|].
  by apply handle_stores_session.
Qed.

Lemma settle_settledMirror i p now r (sys : System) :
  settledMirror sys ->
  settledMirror (if queuesUpdater p then commit (settle i p now r sys)
                 else settle i p now r sys).
Proof.
  intros [[Hreg Hid] Hq].
  pose proof (resume_stores_session now p r (world sys) Hid) as Hid'.
  destruct (resume_registry now p r (world sys))
    as [[E1 [[E2 E3]|[Hp E3]]]|[E1 E3]]; unfold after in *.
  - assert (settledMirror (settle i p now r sys)) as H.
    { unfold settledMirror, mirrored, settle. cbn [world].
      by rewrite E1, E2, E3. }
    destruct (queuesUpdater p); [by apply commit_settledMirror|done].
  - rewrite Hp. unfold settledMirror, mirrored, sessionStored, commit, settle in *.
    cbn [world runUpdaters snd react localStorage queued].
    rewrite E3, Hq. cbn [app foldl fst snd].
    split; [|done]. split; [apply readRegistry_stored|].
    by rewrite session_lookup_through_registry.
  - assert (settledMirror (settle i p now r sys)) as H.
    { unfold settledMirror, mirrored, settle. cbn [world].
      by rewrite E1, E3. }
    destruct (queuesUpdater p); [by apply commit_settledMirror|done].
Qed.

Lemma orderlyReachable_settledMirror (sys : System) :
  orderlyReachable sys -> settledMirror sys.
Proof.
  intros (store & w & p & Hm & Hsteps).
  assert (H0 : settledMirror (started w p)).
  { split; [exact (mount_restorable store w p Hm)|].
    exact (mount_queues_nothing store w p Hm). }
  induction Hsteps as [|x y z Hstep _ IH]; [done|].
  apply IH. destruct Hstep.
  - by apply dispatch_settledMirror.
  - by apply settle_settledMirror.
  - by apply commit_settledMirror.
Qed.

Lemma shownSystem_orderlyReachable : orderlyReachable shownSystem.
Proof.
  exists ∅, (after createSession freshWorld), (Some createSession_k).
  split; [reflexivity|]. unfold shownSystem, greetedSystem.
  eapply rtc_r; [apply rtc_refl|].
  by apply (orderly_settle 0 createSession_k (js "now") (Some (js "abc"))
              afterMount).
Qed.

(** ** Starting (lines 37-55) *)

Lemma mount_with_registry (store : gmap (list N) (list N))
    (l : list HistoryItem) :
  readRegistry store = Some l ->
  mount store =
    match store !! chat_session_id with
    | Some (c :: s) =>
        Ready (mountedWorld store l (Some (c :: s)) (GET_history (c :: s)))
              (Some (fetchHistory_k (c :: s)))
    | Some [] | None =>
        Ready (mountedWorld store l None POST_session) (Some createSession_k)
    end.
Proof.
  unfold readRegistry, mount. intros H.
  destruct (storedRegistry store) as [v|]; [|done]. simpl in H. rewrite H.
  unfold initSession. run.
  by destruct (store !! chat_session_id) as [[|??]|].
Qed.

(** X2.  When the stored registry reads as [l], mounting installs [l] and
    sends exactly one request: the history of the stored session id when
    one is stored and is not the empty string, without creating a session;
    the creation of a session otherwise.  The store is not written. *)
Theorem mount_resumes_or_creates (store : gmap (list N) (list N))
    (l : list HistoryItem) :
  readRegistry store = Some l ->
  mount store =
    match store !! chat_session_id with
    | Some (c :: s) =>
        Ready (mountedWorld store l (Some (c :: s)) (GET_history (c :: s)))
              (Some (fetchHistory_k (c :: s)))
    | Some [] | None =>
        Ready (mountedWorld store l None POST_session) (Some createSession_k)
    end.
Proof. apply mount_with_registry. Qed.

Lemma mount_resumes_or_creates_witness :
  readRegistry abcStore = Some []
  /\ mount abcStore =
       Ready (mountedWorld abcStore [] (Some (js "abc")) (GET_history (js "abc")))
             (Some (fetchHistory_k (js "abc"))).
Proof.
  split; [reflexivity|].
  exact (mount_resumes_or_creates abcStore [] eq_refl).
Defined.

Lemma mount_resumes_session (w : World) (l : list HistoryItem) :
  readRegistry (localStorage w) = Some l ->
  sessionStored w ->
  exists w' p,
    mount (localStorage w) = Ready w' p
    /\ historyList (react w') = l
    /\ localStorage w' = localStorage w
    /\ match sessionId (react w) with
       | Some sid =>
           falsy sid = false ->
           sessionId (react w') = Some sid /\ p = Some (fetchHistory_k sid)
       | None => sessionId (react w') = None /\ p = Some createSession_k
       end.
Proof.
  intros Hreg Hid. unfold sessionStored in Hid.
  rewrite (mount_with_registry _ _ Hreg).
  destruct (sessionId (react w)) as [sid|].
  - rewrite Hid. destruct sid as [|c s]; eexists _, _; by repeat split.
  - destruct (localStorage w !! chat_session_id) as [[|??]|];
      try done; eexists _, _; by repeat split.
Qed.

(** X3.  In every state the component can reach, whatever render handles
    the events and whenever the renders come, a reload can start from the
    store: mounting on the current store succeeds, since the registry in it
    can be read, and it resumes the current session by requesting its
    history (when the id is not the empty string), or requests a new
    session when there is none. *)
Theorem reload_resumes_session (sys : System) :
  reachable sys ->
  exists w' p,
    mount (localStorage (world sys)) = Ready w' p
    /\ localStorage w' = localStorage (world sys)
    /\ match sessionId (react (world sys)) with
       | Some sid =>
           falsy sid = false ->
           sessionId (react w') = Some sid /\ p = Some (fetchHistory_k sid)
       | None => sessionId (react w') = None /\ p = Some createSession_k
       end.
Proof.
  intros ([l Hreg] & _ & Hid)%reachable_restorable.
  destruct (mount_resumes_session (world sys) l Hreg Hid)
    as (w' & p & Hm & _ & Hs & H).
  by exists w', p.
Qed.

Lemma reload_resumes_session_witness :
  reachable doubleSubmitted
  /\ exists w' p,
       mount (localStorage (world doubleSubmitted)) = Ready w' p
       /\ sessionId (react w') = Some (js "abc").
Proof.
  split; [exact doubleSubmitted_reachable|].
  destruct (reload_resumes_session doubleSubmitted doubleSubmitted_reachable)
    as (w' & p & Hm & _ & H).
  exists w', p. split; [exact Hm|]. by apply H.
Defined.

(** Without that order the registry in the store can differ from the one
    in the state: when a deletion is answered between the answer to a
    creation and the render that runs its updater, the state keeps what the
    deletion left and the store what the updater wrote. *)
Example late_updater_scenario :
  historyList (react (world lateUpdaterSystem))
    = [ {| id := js "xyz"; date := js "later" |} ]
  /\ readRegistry (localStorage (world lateUpdaterSystem))
     = Some [ {| id := js "new"; date := js "then" |};
              {| id := js "xyz"; date := js "later" |}; abcItem ].
Proof. by vm_compute. Qed.

(** X17.  While the answer to every creation is followed at once by the
    render that runs its updater, a reload also finds the registry: in every
    state reached that way, whatever render handles the events, mounting on
    the current store installs the registry the state holds. *)
Theorem reload_restores_registry (sys : System) :
  orderlyReachable sys ->
  exists w' p,
    mount (localStorage (world sys)) = Ready w' p
    /\ historyList (react w') = historyList (react (world sys))
    /\ localStorage w' = localStorage (world sys).
Proof.
  intros [[Hreg Hid] _]%orderlyReachable_settledMirror.
  destruct (mount_resumes_session (world sys) _ Hreg Hid)
    as (w' & p & Hm & Hl & Hs & _).
  by exists w', p.
Qed.

Lemma reload_restores_registry_witness :
  orderlyReachable shownSystem
  /\ exists w' p,
       mount (localStorage (world shownSystem)) = Ready w' p
       /\ historyList (react w') = [abcItem].
Proof.
  split; [exact shownSystem_orderlyReachable|].
  destruct (reload_restores_registry shownSystem shownSystem_orderlyReachable)
    as (w' & p & Hm & Hl & _).
  exists w', p. split; [exact Hm|]. rewrite Hl. reflexivity.
Defined.

(** ** Creating a session (lines 65-80, 100-102) *)

Lemma createSession_resume_success now s (w : World) :
  createSession_resume now (Some s) w =
  (None,
   {| react :=
        {| sessionId := Some s; messages := [initialAssistantMessage];
           input := input (react w); isLoading := isLoading (react w);
           historyList := {| id := s; date := now |} :: historyList (react w) |};
      localStorage := <[chat_session_id := s]> (localStorage w);
      fetched := fetched w; console := console w; alerts := alerts w;
      queued :=
        queued w
        ++ [(chat_history_list,
             JSON_stringify
               ({| id := s; date := now |} :: historyList (react w)))] |}).
Proof. reflexivity. Qed.

Lemma runUpdaters_last_write (w : World) key value writes :
  queued w = writes ++ [(key, value)] ->
  localStorage (after runUpdaters w) !! key = Some value.
Proof.
  intros E. unfold after. cbn [runUpdaters snd localStorage]. rewrite E.
  rewrite foldl_snoc. apply lookup_insert_eq.
Qed.

(** X4.  A new chat asks for one session and touches nothing else.  When
    the service answers with an id, that id becomes the current one and is
    stored, the log is replaced by the greeting alone, and one entry with
    that id is put at the head of the registry: the older entries stay in
    place and an entry with the same id is not merged.  The registry in the
    store is not written by the answer; it is once the next render has run
    the updater, and the registry a reload would read then is the new
    one. *)
Theorem new_chat_prepends_session (now s : jsstring) (w : World) :
  let w0 := after handleNewChat w in
  let w' := after (createSession_resume now (Some s)) w0 in
  left handleNewChat w = Some createSession_k
  /\ react w0 = react w
  /\ localStorage w0 = localStorage w
  /\ fetched w0 = fetched w ++ [POST_session]
  /\ sessionId (react w') = Some s
  /\ localStorage w' !! chat_session_id = Some s
  /\ messages (react w') = [initialAssistantMessage]
  /\ historyList (react w') = {| id := s; date := now |} :: historyList (react w)
  /\ length (filter (fun item => id item = s) (historyList (react w')))
     = S (length (filter (fun item => id item = s) (historyList (react w))))
  /\ localStorage w' !! chat_history_list = localStorage w !! chat_history_list
  /\ readRegistry (localStorage (after runUpdaters w'))
     = Some (historyList (react w'))
  /\ fetched w' = fetched w0.
Proof.
  intros w0 w'.
  assert (E : w' = (createSession_resume now (Some s) w0).2) by reflexivity.
  rewrite createSession_resume_success in E. rewrite E.
  cbn [snd react localStorage fetched sessionId messages historyList].
  repeat split.
  - apply lookup_insert_eq.
  - by rewrite filter_cons_True.
  - rewrite lookup_insert_ne; [done|apply keys_differ].
  - apply readRegistry_of_text.
    by apply (runUpdaters_last_write _ _ _ (queued w0)).
Qed.

Lemma newChats_snoc (items : list HistoryItem) item (w : World) :
  newChats (items ++ [item]) w =
  after (createSession_resume (date item) (Some (id item)))
        (after handleNewChat (newChats items w)).
Proof. unfold newChats. by rewrite foldl_snoc. Qed.

(** X5.  After any number of new chats the registry lists them most recent
    first, above the entries it had; one creation was requested for each;
    and the session of the last one is the current session. *)
Theorem new_chats_stack_most_recent_first
    (items : list HistoryItem) (w : World) :
  historyList (react (newChats items w)) = rev items ++ historyList (react w)
  /\ fetched (newChats items w)
     = fetched w ++ replicate (length items) POST_session
  /\ sessionId (react (newChats items w))
     = match last items with
       | Some item => Some (id item)
       | None => sessionId (react w)
       end.
Proof.
  induction items as [|item items (IHl & IHf & IHs)] using rev_ind.
  - repeat split. simpl. by rewrite app_nil_r.
  - rewrite newChats_snoc. unfold after at 1 3 5.
    rewrite !createSession_resume_success.
    cbn [snd react historyList fetched sessionId].
    rewrite last_snoc, rev_unit. repeat split.
    + change (historyList (react (after handleNewChat (newChats items w))))
        with (historyList (react (newChats items w))).
      rewrite IHl. by destruct item.
    + change (fetched (after handleNewChat (newChats items w)))
        with (fetched (newChats items w) ++ [POST_session]).
      rewrite IHf, length_app, Nat.add_comm. simpl.
      rewrite <- app_assoc. f_equal.
      change (POST_session :: replicate (length items) POST_session)
        with (replicate (S (length items)) POST_session).
      by rewrite replicate_S_end.
Qed.

(** ** Deleting a session (lines 119-140) *)

Lemma handleDeleteSession_resume_registry seen sid (w : World) :
  let updatedList := filter (fun item => id item ≠ sid) (historyList seen) in
  let w' := after (handleDeleteSession_resume seen sid (Some ())) w in
  historyList (react w') = updatedList
  /\ localStorage w' !! chat_history_list = Some (JSON_stringify updatedList).
Proof.
  intros updatedList w'. subst w'. unfold handleDeleteSession_resume.
  fold updatedList. run.
  case_bool_decide; [|split; [done|apply lookup_insert_eq]].
  destruct updatedList as [|nextSession ?]; run.
  - split; [done|].
    rewrite lookup_delete_ne by apply keys_differ. apply lookup_insert_eq.
  - case_bool_decide; run; (split; [done|]).
    + apply lookup_insert_eq.
    + rewrite lookup_insert_ne by apply keys_differ. apply lookup_insert_eq.
Qed.

(** X6.  When the deletion of [sid] succeeds, the registry becomes the
    registry of the render that asked for it, without its entries of id
    [sid], however many: the others keep their order; an entry that was
    added since that render is lost with them; and the registry a reload
    would read is the same. *)
Theorem delete_removes_every_entry (seen : State) (sid : jsstring) (w : World) :
  let w' := after (handleDeleteSession_resume seen sid (Some ())) w in
  historyList (react w')
    = filter (fun item => id item ≠ sid) (historyList seen)
  /\ (forall item, item ∈ historyList (react w') <->
                   id item ≠ sid /\ item ∈ historyList seen)
  /\ sublist (historyList (react w')) (historyList seen)
  /\ readRegistry (localStorage w') = Some (historyList (react w')).
Proof.
  intros w'.
  destruct (handleDeleteSession_resume_registry seen sid w) as [Hl Hs].
  fold w' in Hl, Hs. rewrite Hl.
  split; [done|]. split; [intros item; by rewrite list_elem_of_filter|].
  split; [apply sublist_filter|].
  by apply readRegistry_of_text.
Qed.

Lemma delete_removes_every_entry_witness :
  abcItem ∈ historyList
    (react (after (handleDeleteSession_resume (react twoSessionsWorld)
                     (js "xyz") (Some ()))
                  twoSessionsWorld)).
Proof.
  apply (proj1 (proj2 (delete_removes_every_entry (react twoSessionsWorld)
                         (js "xyz") twoSessionsWorld))).
  split; [by vm_compute|]. right. left.
Defined.

(** X7.  When the deletion of [sid] succeeds and [sid] was not the current
    session of the render that asked, the session, the log and the stored
    id stay and nothing is requested.  When it was, the component switches
    to the first session left, whose id differs from [sid]: that id becomes
    current, is stored, and its history is requested; and when no session
    is left, there is no current session, the log is the greeting alone and
    the stored id is removed. *)
Theorem delete_falls_back_to_first_left
    (seen : State) (sid : jsstring) (w : World) :
  let left' := filter (fun item => id item ≠ sid) (historyList seen) in
  let w' := after (handleDeleteSession_resume seen sid (Some ())) w in
  let p := left (handleDeleteSession_resume seen sid (Some ())) w in
  (sessionId seen <> Some sid ->
     p = None /\ sessionId (react w') = sessionId (react w)
     /\ messages (react w') = messages (react w)
     /\ localStorage w' !! chat_session_id = localStorage w !! chat_session_id
     /\ fetched w' = fetched w)
  /\ (sessionId seen = Some sid ->
      match left' with
      | next :: _ =>
          p = Some (fetchHistory_k (id next))
          /\ id next <> sid
          /\ sessionId (react w') = Some (id next)
          /\ localStorage w' !! chat_session_id = Some (id next)
          /\ fetched w' = fetched w ++ [GET_history (id next)]
          /\ messages (react w') = messages (react w)
      | [] =>
          p = None /\ sessionId (react w') = None
          /\ messages (react w') = [initialAssistantMessage]
          /\ localStorage w' !! chat_session_id = None
          /\ fetched w' = fetched w
      end).
Proof.
  intros left' w' p. subst w' p. unfold handleDeleteSession_resume.
  fold left'. split; intros Hs.
  - rewrite bool_decide_eq_false_2 by congruence. run. repeat split.
    apply session_lookup_through_registry.
  - rewrite bool_decide_eq_true_2 by congruence.
    destruct left' as [|next rest] eqn:E.
    + run. repeat split. apply lookup_delete_eq.
    + assert (Hnext : id next <> sid).
      { assert (next ∈ left') as [? _]%list_elem_of_filter; [|done].
        rewrite E. left. }
      unfold handleLoadSession.
      rewrite bool_decide_eq_false_2 by (rewrite Hs; congruence).
      run. repeat split; [done|]. apply lookup_insert_eq.
Qed.

Lemma delete_falls_back_to_first_left_witness :
  sessionId (react twoSessionsWorld) = Some (js "xyz")
  /\ sessionId
       (react (after (handleDeleteSession_resume
                        (react twoSessionsWorld) (js "xyz") (Some ()))
                     twoSessionsWorld))
     = Some (js "abc").
Proof.
  split; [reflexivity|].
  pose proof (proj2 (delete_falls_back_to_first_left
    (react twoSessionsWorld) (js "xyz") twoSessionsWorld) eq_refl) as H.
  change (filter _ (historyList (react twoSessionsWorld)))
    with [abcItem] in H.
  apply H.
Defined.

(** ** What is shown (lines 216-249) *)

(** X8.  The list of sources is shown under an entry exactly when the entry
    has at least one source, one link for each, in order.  So a reply whose
    response carried an empty list of sources is shown as a reply whose
    response carried none: the whole view is the same. *)
Theorem sources_shown_when_not_empty
    (ans : option jsstring) (c : Source) (cs : list Source) (w : World) :
  let none := {| answer := ans; cited := None |} in
  let empty := {| answer := ans; cited := Some [] |} in
  let some := {| answer := ans; cited := Some (c :: cs) |} in
  sourcesBlock (renderMessage (assistantReply none)) = None
  /\ sourcesBlock (renderMessage (assistantReply empty)) = None
  /\ sourcesBlock (renderMessage (assistantReply some))
     = Some (renderSource <$> c :: cs)
  /\ render (react (after (sendMessage_resume (Some empty)) w))
     = render (react (after (sendMessage_resume (Some none)) w)).
Proof.
  repeat split. unfold render. run. f_equal.
  by rewrite !fmap_app.
Qed.

(** X9.  When a render is committed after each submit, before the next
    user action: whenever the screen shows the input and the button enabled,
    no send is in flight; and the view of the current state, shown by the
    next render, has them disabled and shows [Thinking...] exactly when one
    send is in flight, with one block for each entry of the log. *)
Theorem controls_disabled_while_sending (sys : System) :
  uiReachable sys ->
  let shown := render (rendered sys) in
  let next := render (react (world sys)) in
  (inputDisabled shown = false -> sends (inFlight sys) = 0%nat)
  /\ (sendDisabled shown = false -> sends (inFlight sys) = 0%nat)
  /\ inputDisabled next = thinking next
  /\ sendDisabled next = thinking next
  /\ thinking next = bool_decide (sends (inFlight sys) = 1%nat)
  /\ length (messagesArea next) = length (messages (react (world sys))).
Proof.
  intros [H J]%uiReachable_singleFlight. unfold singleFlight, flagShown in *.
  cbn [render inputDisabled sendDisabled thinking messagesArea].
  assert (Hs : isLoading (rendered sys) = false -> sends (inFlight sys) = 0%nat).
  { intros Hs. by rewrite H, (J Hs). }
  repeat split; try done; [|by rewrite length_fmap].
  rewrite H. by destruct (isLoading _).
Qed.

Lemma controls_disabled_while_sending_witness :
  uiReachable askedSystem
  /\ inputDisabled (render (react (world askedSystem))) = true.
Proof.
  split; [exact askedSystem_uiReachable|].
  destruct (controls_disabled_while_sending askedSystem askedSystem_uiReachable)
    as (_ & _ & E & _ & T & _).
  rewrite E, T. reflexivity.
Defined.

(** ** Answers that come late, or not at all (lines 86-98, 104-109) *)

(** X10.  The history that arrives last wins, whichever session is
    current: after a switch to [a] and then to [b], if the history of [b]
    arrives before that of [a], the current and stored id is [b] and the log
    is the history of [a]. *)
Theorem late_history_overwrites_log
    (a b : jsstring) (m : Message) (ha hb : list Message) (w : World) :
  sessionId (react w) <> Some a ->
  a <> b ->
  let w' := switchTwice a b (m :: ha) hb w in
  sessionId (react w') = Some b
  /\ localStorage w' !! chat_session_id = Some b
  /\ messages (react w') = m :: ha
  /\ fetched w' = fetched w ++ [GET_history a; GET_history b].
Proof.
  intros Ha Hab. unfold switchTwice, handleLoadSession.
  rewrite (bool_decide_eq_false_2 (Some a = _)) by done. run.
  rewrite bool_decide_eq_false_2 by congruence. run.
  destruct hb; run; repeat split; try apply lookup_insert_eq;
    by rewrite <- app_assoc.
Qed.

Lemma late_history_overwrites_log_witness :
  sessionId (react oneSessionWorld) <> Some (js "x")
  /\ js "x" <> js "y"
  /\ sessionId (react (switchTwice (js "x") (js "y") [hiMessage] []
                         oneSessionWorld)) = Some (js "y")
  /\ messages (react (switchTwice (js "x") (js "y") [hiMessage] []
                        oneSessionWorld)) = [hiMessage].
Proof.
  assert (H1 : sessionId (react oneSessionWorld) <> Some (js "x"))
    by (vm_compute; discriminate).
  assert (H2 : js "x" <> js "y") by (vm_compute; discriminate).
  split; [exact H1|]. split; [exact H2|].
  destruct (late_history_overwrites_log (js "x") (js "y") hiMessage [] []
              oneSessionWorld H1 H2) as (E1 & _ & E2 & _).
  split; [exact E1 | exact E2].
Defined.

(** X11.  A switch whose history cannot be fetched still changes the
    current and the stored id; the log of the session left behind stays on
    screen under the new id, and the failure goes to the console only. *)
Theorem failed_switch_keeps_old_log (sid : jsstring) (w : World) :
  sessionId (react w) <> Some sid ->
  let w' := switchThenFail sid w in
  sessionId (react w') = Some sid
  /\ localStorage w' !! chat_session_id = Some sid
  /\ messages (react w') = messages (react w)
  /\ console w' = console w ++ ["Error fetching history:"%string]
  /\ alerts w' = alerts w.
Proof.
  intros H. unfold switchThenFail, handleLoadSession.
  rewrite bool_decide_eq_false_2 by done. run.
  repeat split. apply lookup_insert_eq.
Qed.

Lemma failed_switch_keeps_old_log_witness :
  sessionId (react oneSessionWorld) <> Some (js "x")
  /\ messages (react (switchThenFail (js "x") oneSessionWorld))
     = [initialAssistantMessage].
Proof.
  assert (H1 : sessionId (react oneSessionWorld) <> Some (js "x"))
    by (vm_compute; discriminate).
  split; [exact H1|].
  destruct (failed_switch_keeps_old_log (js "x") oneSessionWorld H1)
    as (_ & _ & E & _).
  rewrite E. reflexivity.
Defined.

(** ** What no step does *)

Lemma handle_keeps_log_shown (e : Event) (seen : State) (w : World) :
  messages (react w) <> [] ->
  messages (react (after (handle e seen) w)) <> [].
Proof.
  intros H. destruct e; run; repeat case_match; run; try done.
  by destruct (messages (react w)).
Qed.

Lemma resume_keeps_log_shown now p r (w : World) :
  messages (react w) <> [] ->
  messages (react (after (resume now p r) w)) <> [].
Proof.
  intros H. destruct p; simpl in r; cbn [resume].
  - by destruct r.
  - by destruct r as [[[|??]|]|].
  - destruct r; [|done]. unfold handleDeleteSession_resume, handleLoadSession.
    run. by repeat case_match.
  - by destruct r.
  - destruct r; run; by destruct (messages (react w)).
Qed.

(** X12.  Once the log shows something, no event and no answer empties it:
    it only ever becomes the greeting, a history that is not empty, or
    itself with one more entry. *)
Theorem log_is_never_emptied (sys sys' : System) :
  rtc step sys sys' ->
  messages (react (world sys)) <> [] ->
  messages (react (world sys')) <> [].
Proof.
  induction 1 as [|x y z Hstep _ IH]; [done|].
  intros H. apply IH. destruct Hstep.
  - by apply handle_keeps_log_shown.
  - by apply resume_keeps_log_shown.
  - exact H.
Qed.

Lemma log_is_never_emptied_witness :
  rtc step greetedSystem askedSystem
  /\ messages (react (world greetedSystem)) <> []
  /\ messages (react (world askedSystem)) <> [].
Proof.
  assert (Hsteps : rtc step greetedSystem askedSystem).
  { unfold askedSystem, typedSystem.
    eapply rtc_r; [|apply step_commit].
    eapply rtc_r; [|apply step_event].
    eapply rtc_r; [|apply step_commit].
    eapply rtc_r; [|apply step_event]. apply rtc_refl. }
  assert (H : messages (react (world greetedSystem)) <> [])
    by (vm_compute; discriminate).
  split; [exact Hsteps|]. split; [exact H|].
  exact (log_is_never_emptied greetedSystem askedSystem Hsteps H).
Defined.

Lemma deletions_after_fetch (r : Request) (w w' : World) :
  fetched w' = fetched w ++ [r] -> isDeletion r = false ->
  deletions w' = deletions w.
Proof.
  unfold deletions. intros -> Hr.
  rewrite List.filter_app. simpl. rewrite Hr. apply app_nil_r.
Qed.

Lemma handleLoadSession_deletions (seen : State) sid (w : World) :
  deletions (after (handleLoadSession seen sid) w) = deletions w.
Proof.
  unfold handleLoadSession. case_bool_decide; [done|].
  by apply (deletions_after_fetch (GET_history sid)).
Qed.

(** X13.  A [DELETE] request is sent only by a deletion or a reset whose
    dialog was accepted: no other event, whatever render handles it, no
    answer of the service, no start of the component and no render sends
    one. *)
Theorem deletion_needs_confirmation :
  (forall (e : Event) (sys : System),
     confirmed e = false ->
     deletions (world (dispatch e sys)) = deletions (world sys))
  /\ (forall i p now r (sys : System),
        deletions (world (settle i p now r sys)) = deletions (world sys))
  /\ (forall store w p, mount store = Ready w p -> deletions w = [])
  /\ (forall sys : System, deletions (world (commit sys)) = deletions (world sys)).
Proof.
  split; [|split; [|split; [|done]]].
  - intros e sys He. unfold dispatch. cbn [world].
    destruct e as [|sid|[] sid|[]| |]; try done.
    + by apply (deletions_after_fetch POST_session).
    + apply handleLoadSession_deletions.
    + run. by case_match.
    + run. by repeat case_match.
    + run. case_match; [done|].
      by apply (deletions_after_fetch (POST_chat (sessionId (rendered sys))
                                                 (input (rendered sys)))).
  - intros i p now r sys. unfold settle. cbn [world].
    destruct p; simpl in r; cbn [resume].
    + by destruct r.
    + by destruct r as [[[|??]|]|].
    + destruct r; [|done]. unfold handleDeleteSession_resume.
      case_bool_decide; [|done].
      destruct (filter _ _) as [|next rest]; [done|].
      change (deletions (world sys)) with
        (deletions (after (setHistoryList (next :: rest);;
                           setItem chat_history_list
                             (JSON_stringify (next :: rest)))
                          (world sys))).
      apply handleLoadSession_deletions.
    + by destruct r.
    + by destruct r.
  - intros store w p. unfold mount.
    destruct (storedRegistry store) as [v|]; [|done].
    destruct (asHistoryList v) as [l|]; [|done].
    intros [= <- _]. unfold initSession. run.
    by destruct (store !! chat_session_id) as [[|??]|].
Qed.

Lemma deletion_needs_confirmation_witness :
  confirmed (ResetChat false) = false
  /\ deletions (world (dispatch (ResetChat false) askedSystem)) = [].
Proof.
  split; [reflexivity|].
  rewrite (proj1 deletion_needs_confirmation (ResetChat false) askedSystem)
    by reflexivity.
  reflexivity.
Defined.



(** X15.  The registry, in the state and in the store, is written only by
    the answer to a creation and the answer to a deletion: no user event
    changes it, and neither does the answer to a history load, a reset or a
    send, nor any failure. *)
Theorem registry_written_only_by_create_and_delete :
  (forall (e : Event) (seen : State) (w : World),
     historyList (react (after (handle e seen) w)) = historyList (react w)
     /\ localStorage (after (handle e seen) w) !! chat_history_list
        = localStorage w !! chat_history_list)
  /\ (forall now p r (w : World),
        writesRegistry p = false \/ r = None ->
        historyList (react (after (resume now p r) w)) = historyList (react w)
        /\ localStorage (after (resume now p r) w) !! chat_history_list
           = localStorage w !! chat_history_list).
Proof.
  split.
  - intros e seen w. destruct e; run; repeat case_match; run; try done.
    split; [done|].
    rewrite lookup_insert_ne; [done|apply keys_differ].
  - intros now p r w [Hp | ->].
    + destruct p; try done; simpl in r; cbn [resume].
      * by destruct r as [[[|??]|]|].
      * by destruct r.
      * by destruct r.
    + by destruct p.
Qed.

Lemma registry_written_only_by_create_and_delete_witness :
  writesRegistry (handleResetChat_k (js "abc")) = false
  /\ historyList
       (react (after (resume [] (handleResetChat_k (js "abc")) (Some ()))
                     oneSessionWorld))
     = [abcItem].
Proof.
  split; [reflexivity|].
  rewrite (proj1 (proj2 registry_written_only_by_create_and_delete
                    [] (handleResetChat_k (js "abc")) (Some ())
                    oneSessionWorld (or_introl eq_refl))).
  reflexivity.
Defined.

Lemma filter_other_ids_keeps_all (sid : jsstring) (l : list HistoryItem) :
  sid ∉ id <$> l -> filter (fun item => id item ≠ sid) l = l.
Proof.
  induction l as [|x l IH]; [done|].
  rewrite fmap_cons, not_elem_of_cons. intros [Hx Hl].
  rewrite filter_cons_True by done. by rewrite IH.
Qed.

Lemma filter_distinct_ids_length (sid : jsstring) (l : list HistoryItem) :
  NoDup (id <$> l) ->
  (length l <= S (length (filter (fun item => id item ≠ sid) l)))%nat.
Proof.
  induction l as [|x l IH]; [simpl; lia|].
  rewrite fmap_cons, NoDup_cons. intros [Hx Hl].
  destruct (decide (id x = sid)) as [E|E].
  - rewrite filter_cons_False by (intros H; by apply H).
    rewrite filter_other_ids_keeps_all by (by rewrite <- E). simpl. lia.
  - rewrite filter_cons_True by done. simpl. specialize (IH Hl). lia.
Qed.

(** X16.  While the ids of the registry are distinct, a deletion never
    removes the last session: a deletion is only sent when the registry of
    that render holds two entries or more, and its answer then leaves at
    least one, at most one fewer than before.  So what is written for a
    registry left empty is never reached. *)
Theorem delete_leaves_a_session
    (seen : State) (confirm : bool) (sid : jsstring) (w w1 : World) p :
  NoDup (id <$> historyList seen) ->
  handleDeleteSession seen confirm sid w = (Some p, w1) ->
  p = handleDeleteSession_k seen sid
  /\ forall w2 : World,
       let w' := after (handleDeleteSession_resume seen sid (Some ())) w2 in
       (1 <= length (historyList (react w')))%nat
       /\ (length (historyList seen)
           <= S (length (historyList (react w'))))%nat.
Proof.
  intros Hdistinct Hbegin. unfold handleDeleteSession in Hbegin.
  destruct (length (historyList seen) <=? 1)%nat eqn:Hlen; [done|].
  destruct confirm; [|done]. injection Hbegin as <- _.
  apply Nat.leb_gt in Hlen. split; [done|]. intros w2. cbn zeta.
  destruct (handleDeleteSession_resume_registry seen sid w2) as [-> _].
  pose proof (filter_distinct_ids_length sid _ Hdistinct).
  split; lia.
Qed.

Lemma delete_leaves_a_session_witness :
  NoDup (id <$> historyList (react twoSessionsWorld))
  /\ (1 <= length (historyList (react
             (after (handleDeleteSession_resume (react twoSessionsWorld)
                       (js "xyz") (Some ()))
                    twoSessionsWorld))))%nat.
Proof.
  assert (H : NoDup (id <$> historyList (react twoSessionsWorld))).
  { apply (bool_decide_unpack (NoDup _)). by vm_compute. }
  split; [exact H|].
  apply (proj2 (delete_leaves_a_session (react twoSessionsWorld) true
                  (js "xyz") twoSessionsWorld _ _ H eq_refl)).
Defined.
